(** * SteamGraph: the Steam synchronisation engine

    A shallow embedding of [src/lib/server/steam.ts] (the remote catalog
    client), of [database.ts] (the store writer) and of [jobs.ts] (the
    reconciler), followed by the properties of the synchronisation pass.

    The program is asynchronous but strictly sequential (every call is
    awaited), so it is modelled as a state transformer over a [World] (the
    contents of [data.json], the committed rows of the three tables and the
    transaction that the database session of the process has open, if any)
    that also yields the chronological list of what the process did.  Everything
    the program cannot decide by itself (the answers of the Steam API, the
    clock, I/O and database faults) is read from an oracle [Env], indexed by
    the number of external calls made so far, so that one remote may answer
    differently at different moments of the same run. *)

From stdpp Require Import gmap strings list fin_maps pretty.

(** ** JavaScript outcomes *)

(** The exceptions the three modules can raise or observe. *)
Inductive exn : Type :=
  | NetworkError                (* fetch() rejected: remote unreachable *)
  | HttpError (msg : string)    (* throw new Error(`Failed to ...`) *)
  | SyntaxError                 (* response.json() rejected *)
  | TypeError                   (* property read on undefined *)
  | DbError                     (* a pg call rejected *)
  | FsError.                    (* an fs.promises call rejected *)

(** An awaited call returns, throws, or is still running when the fuel of
    the only unbounded loop ([getSteamApps]) is used up. *)
Inductive outcome (A : Type) : Type :=
  | Done (a : A)
  | Thrown (e : exn)
  | OutOfFuel.
Arguments Done {A} a.
Arguments Thrown {A} e.
Arguments OutOfFuel {A}.

(** ** Remote JSON shapes (steam.ts reads them duck-typed)

    A field the source reads through [?.] or [??], or whose absence changes
    the control flow, is an [option]; a flag only tested for truthiness is a
    [bool] ([false] when absent). *)

Record RemoteApp := { appid : Z; ra_name : string }.

Record AppListResponse := {
  apps : option (list RemoteApp);
  have_more_results : bool;
  last_appid : option Z
}.
Record AppListBody := { al_response : option AppListResponse }.

Record RemoteTagWeight := { tw_tagid : Z; tw_weight : Z }.

Record StoreItem := {
  si_appid : Z;
  si_name : string;
  full_description : string;
  si_tags : option (list RemoteTagWeight);
  unvailable_for_country_restriction : bool
}.
Record ItemsResponse := { store_items : option (list StoreItem) }.
Record ItemsBody := { it_response : option ItemsResponse }.

Record RemoteTag := { tagid : Z; rt_name : string }.
Record TagListResponse := {
  tl_tags : option (list RemoteTag);
  version_hash : option Z
}.
Record TagListBody := { tl_response : option TagListResponse }.

Record PlayersResponse := { player_count : option Z }.
Record PlayersBody := { pl_response : option PlayersResponse }.

(** What [await fetch(...)] followed by [response.json()] can give: the
    promise rejects, or a response arrives with its [ok] flag, its
    [statusText] and a body that parses ([Some]) or not ([None]). *)
Inductive Fetch (B : Type) : Type :=
  | Reject
  | Resp (ok : bool) (statusText : string) (json : option B).
Arguments Reject {B}.
Arguments Resp {B} ok statusText json.

(** The four endpoints with the query parameters the source sends. *)
Inductive Request : Type :=
  | GetAppList (if_modified_since last_appid max_results : Z)
  | GetItems (ids : list Z)
  | GetTagList (have_version_hash : Z)
  | GetNumberOfCurrentPlayers (appid : Z).

(** ** Values exchanged between the modules *)

Record App := { appId : Z; name : string }.
Record AppList := { al_apps : list App; time : Z }.

Record Tag := { id : Z; tag_name : string }.
Record TagList := { tags : list Tag; tagHash : option Z }.

Record TagWeight := { tw_id : Z; weight : Z }.
Record AppDetails := {
  ad_appId : Z;
  ad_name : string;
  description : string;
  ad_tags : list TagWeight;
  color : option string;          (* color?: string *)
  playerCount : option Z          (* playerCount?: number *)
}.

(** ** The relational store (database.ts, [checkDatabase]) *)

(** A row of table [app]; [color] and [player_count] are nullable. *)
Record AppRow := {
  r_name : string;
  r_description : string;
  r_color : option string;
  r_player_count : option Z
}.

(** The column defaults declared by [CREATE TABLE app]. *)
Definition DEFAULT_color : string := "#000000".
Definition DEFAULT_player_count : Z := 0%Z.

Record Store := {
  t_app : gmap Z AppRow;             (* app_id PRIMARY KEY *)
  t_tags : gmap Z string;            (* tag_id PRIMARY KEY, name NOT NULL *)
  t_app_tags : gmap (Z * Z) Z        (* PRIMARY KEY (app_id, tag_id) *)
}.

(** The statements the source sends to PostgreSQL. *)
Inductive Stmt : Type :=
  | BEGIN
  | COMMIT
  | ROLLBACK
  | TagsUpsert (rows : list (Z * string))
  | AppQuery (rows : list (Z * AppRow))
  | TagsQuery (rows : list (Z * Z * Z)).

(** ** The world *)

(** [data.json] as [setDataJson] writes it: both keys are optional because
    [JSON.stringify] drops a key whose value is [undefined]. *)
Record DataJson := { lastTagHash : option Z; lastAppTime : option Z }.

Inductive Event : Type :=
  | Log (msg : string)                       (* console.log *)
  | LogError (msg : string)                  (* console.error *)
  | EFetch (r : Request)                     (* a request sent to Steam *)
  | EConnect
  | ERelease
  | EQuery (s : Stmt) (ok : bool)            (* a statement and its fate *)
  | EWriteFile (d : DataJson) (ok : bool).   (* fs.promises.writeFile *)

(** The session that PostgreSQL keeps for a connected client: outside any
    transaction, inside a transaction block that sees the rows [view], or
    inside a transaction block that a failed statement has aborted. *)
Inductive Session : Type :=
  | Idle
  | Open (view : Store)
  | Failed.

Record World := {
  file : option DataJson;     (* None: data.json missing, empty or unparseable *)
  db : Store;                 (* committed rows *)
  session : Session;          (* the session of the client in use *)
  tick : nat                  (* external calls made so far *)
}.

Record Env := {
  clock : nat -> Z;                                   (* Date.now() *)
  remote_applist : nat -> Request -> Fetch AppListBody;
  remote_items : nat -> Request -> Fetch ItemsBody;
  remote_taglist : nat -> Request -> Fetch TagListBody;
  remote_players : nat -> Request -> Fetch PlayersBody;
  fs_read_ok : nat -> bool;
  fs_write_ok : nat -> bool;
  fs_write_torn : nat -> bool;   (* a write that fails: after truncation? *)
  pg_connect_ok : nat -> bool;
  pg_query_ok : nat -> bool      (* false: the query is lost in transport *)
}.

(** ** A state, exception and trace monad for awaited calls *)

(** One run of a call: how it ended, the world it left, and what it did on
    the way, oldest event first. *)
Record Run (A : Type) : Type := {
  result : outcome A;
  after : World;
  events : list Event
}.
Arguments result {A} r.
Arguments after {A} r.
Arguments events {A} r.

Definition M (A : Type) : Type := World -> Run A.

Definition ret {A} (a : A) : M A :=
  fun w => {| result := Done a; after := w; events := [] |}.
Definition throw {A} (e : exn) : M A :=
  fun w => {| result := Thrown e; after := w; events := [] |}.
Definition diverge {A} : M A :=
  fun w => {| result := OutOfFuel; after := w; events := [] |}.

(** [let x = await m; k x]: the events of [m] come before those of [k]. *)
Definition bind {A B} (m : M A) (k : A -> M B) : M B :=
  fun w =>
    match m w with
    | {| result := Done a; after := w1; events := evs1 |} =>
        match k a w1 with
        | {| result := r; after := w2; events := evs2 |} =>
            {| result := r; after := w2; events := evs1 ++ evs2 |}
        end
    | {| result := Thrown e; after := w1; events := evs1 |} =>
        {| result := Thrown e; after := w1; events := evs1 |}
    | {| result := OutOfFuel; after := w1; events := evs1 |} =>
        {| result := OutOfFuel; after := w1; events := evs1 |}
    end.

(** [try { m } catch (e) { h e }] *)
Definition try_catch {A} (m : M A) (h : exn -> M A) : M A :=
  fun w =>
    match m w with
    | {| result := Thrown e; after := w1; events := evs1 |} =>
        match h e w1 with
        | {| result := r; after := w2; events := evs2 |} =>
            {| result := r; after := w2; events := evs1 ++ evs2 |}
        end
    | r => r
    end.

(** [try { m } finally { f }], for an [f] that only leaves an event. *)
Definition finally {A} (m : M A) (e : Event) : M A :=
  fun w =>
    match m w with
    | {| result := r; after := w1; events := evs1 |} =>
        {| result := r; after := w1; events := evs1 ++ [e] |}
    end.

Declare Scope js_scope.
Delimit Scope js_scope with js.
Notation "'let*' x ':=' m 'in' k" := (bind m (fun x => k))
  (at level 10, x pattern, m at level 100, k at level 200) : js_scope.
Notation "m ';;;' k" := (bind m (fun _ => k))
  (at level 100, k at level 200, right associativity) : js_scope.
Local Open Scope js_scope.

Definition step (w : World) : World :=
  {| file := file w; db := db w; session := session w;
     tick := S (tick w) |}.

Definition log (msg : string) : M unit :=
  fun w => {| result := Done tt; after := w; events := [Log msg] |}.
Definition log_error (msg : string) : M unit :=
  fun w => {| result := Done tt; after := w; events := [LogError msg] |}.

(** ** steam.ts *)

Module steam.
Section WithEnv.
Context (E : Env).

(** [await fetch(url)]: the request is recorded and the oracle consulted. *)
Definition fetch {B} (remote : Env -> nat -> Request -> Fetch B)
    (r : Request) : M (Fetch B) :=
  fun w => {| result := Done (remote E (tick w) r); after := step w;
              events := [EFetch r] |}.

(** [Date.now()] *)
Definition now : M Z :=
  fun w => {| result := Done (clock E (tick w)); after := step w;
              events := [] |}.

(** [data.response?.apps ?? []] *)
Definition page_apps (data : AppListBody) : list RemoteApp :=
  match al_response data with
  | Some r => default [] (apps r)
  | None => []
  end.

(** [data.response?.apps?.length === 0] *)
Definition page_is_empty (data : AppListBody) : bool :=
  match al_response data with
  | Some r => match apps r with Some [] => true | _ => false end
  | None => false
  end.

Definition to_App (a : RemoteApp) : App :=
  {| appId := appid a; name := ra_name a |}.

(** The [while (moreResults)] loop of [getSteamApps]; [lastAppId] is an
    option because [data.response.last_appid] may be undefined, in which
    case [lastAppId.toString()] throws on the next round. *)
Fixpoint getSteamApps_loop (fuel : nat) (lastTime : Z) (time : Z)
    (lastAppId : option Z) (acc : list RemoteApp) : M AppList :=
  match fuel with
  | O => diverge
  | S fuel' =>
    match lastAppId with
    | None => throw TypeError
    | Some cursor =>
      let* response :=
        fetch remote_applist (GetAppList lastTime cursor 50000) in
      match response with
      | Reject => throw NetworkError
      | Resp false statusText _ =>
          throw (HttpError ("Failed to fetch Steam apps: " +:+ statusText))
      | Resp true _ None => throw SyntaxError
      | Resp true _ (Some data) =>
          let acc' := acc ++ page_apps data in
          if page_is_empty data then
            ret {| al_apps := []; time := lastTime |}
          else
            match al_response data with
            | None => throw TypeError
            | Some r =>
                if have_more_results r then
                  getSteamApps_loop fuel' lastTime time (last_appid r) acc'
                else
                  ret {| al_apps := to_App <$> acc'; time := time |}
            end
      end
    end
  end.

(** [getSteamApps(lastTime = 0)] *)
Definition getSteamApps (fuel : nat) (lastTime : option Z) : M AppList :=
  let lastTime := default 0%Z lastTime in
  let* time := now in
  getSteamApps_loop fuel lastTime time (Some 0%Z) [].

(** [appIds.slice(i, j)] for [i <= j] *)
Definition slice (i j : nat) (l : list Z) : list Z := take (j - i) (drop i l).

(** [for (let i = 0; i < appIds.length; i += 250) chunks.push(...)];
    the loop runs at most [length appIds] times. *)
Fixpoint chunk_loop (fuel i : nat) (appIds : list Z) : list (list Z) :=
  match fuel with
  | O => []
  | S fuel' =>
      if decide (i < length appIds) then
        slice i (i + 250) appIds :: chunk_loop fuel' (i + 250) appIds
      else []
  end.

Definition chunks (appIds : list Z) : list (list Z) :=
  chunk_loop (length appIds) 0 appIds.

(** [store_items.filter(item => !item.unvailable_for_country_restriction)] *)
Definition available (items : list StoreItem) : list StoreItem :=
  filter (fun item => unvailable_for_country_restriction item = false) items.

Definition to_TagWeight (t : RemoteTagWeight) : TagWeight :=
  {| tw_id := tw_tagid t; weight := tw_weight t |}.

(** The object literal built by the final [apps.map]: it has no [color]
    and no [playerCount] key. *)
Definition to_AppDetails (item : StoreItem) : AppDetails :=
  {| ad_appId := si_appid item;
     ad_name := si_name item;
     description := full_description item;
     ad_tags := default [] (fmap (M:=list) to_TagWeight <$> si_tags item);
     color := None;
     playerCount := None |}.

(** [for (const chunk of chunks)]: one request per chunk, in order. *)
Fixpoint getSteamAppDetails_loop (cs : list (list Z))
    (acc : list StoreItem) : M (list StoreItem) :=
  match cs with
  | [] => ret acc
  | chunk :: cs' =>
      let* response := fetch remote_items (GetItems chunk) in
      match response with
      | Reject => throw NetworkError
      | Resp false statusText _ =>
          throw (HttpError
                   ("Failed to fetch Steam app details: " +:+ statusText))
      | Resp true _ None => throw SyntaxError
      | Resp true _ (Some data) =>
          match it_response data with
          | None => throw TypeError
          | Some r =>
              match store_items r with
              | None => throw TypeError
              | Some items =>
                  getSteamAppDetails_loop cs' (acc ++ available items)
              end
          end
      end
  end.

Definition getSteamAppDetails (appIds : list Z) : M (list AppDetails) :=
  let* items := getSteamAppDetails_loop (chunks appIds) [] in
  ret (to_AppDetails <$> items).

Definition to_Tag (t : RemoteTag) : Tag :=
  {| id := tagid t; tag_name := rt_name t |}.

(** [getTagList(lastTagHash = 0)] *)
Definition getTagList (lastTagHash : option Z) : M TagList :=
  let lastTagHash := default 0%Z lastTagHash in
  let* response := fetch remote_taglist (GetTagList lastTagHash) in
  match response with
  | Reject => throw NetworkError
  | Resp false statusText _ =>
      throw (HttpError ("Failed to fetch Steam tag list: " +:+ statusText))
  | Resp true _ None => throw SyntaxError
  | Resp true _ (Some data) =>
      match tl_response data with
      | None => throw TypeError
      | Some r =>
          ret {| tags := default [] (fmap (M:=list) to_Tag <$> tl_tags r);
                 tagHash := version_hash r |}
      end
  end.

(** [getPlayerCount(appId)] *)
Definition getPlayerCount (appId : Z) : M Z :=
  let* response :=
    fetch remote_players (GetNumberOfCurrentPlayers appId) in
  match response with
  | Reject => throw NetworkError
  | Resp false _ _ => ret 0%Z
  | Resp true _ None => throw SyntaxError
  | Resp true _ (Some data) =>
      match pl_response data with
      | None => throw TypeError
      | Some r => ret (default 0%Z (player_count r))
      end
  end.

End WithEnv.
End steam.

(** ** database.ts *)

Module database.

(** [INSERT ... SELECT * FROM UNNEST(...) ON CONFLICT (key) DO UPDATE SET
    col = EXCLUDED.col]: every proposed row replaces the row of the same
    key or is added.  PostgreSQL rejects the statement when two proposed
    rows have the same key. *)
Definition upsert `{Countable K} {V} (rows : list (K * V))
    (table : gmap K V) : gmap K V :=
  list_to_map rows ∪ table.

Definition keys_distinct `{EqDecision K} {V} (rows : list (K * V)) : bool :=
  bool_decide (NoDup rows.*1).

(** [app_tags.app_id REFERENCES app], [app_tags.tag_id REFERENCES tags] *)
Definition references_hold (s : Store) (row : Z * Z * Z) : bool :=
  bool_decide (is_Some (t_app s !! row.1.1)) &&
  bool_decide (is_Some (t_tags s !! row.1.2)).

(** The effect of one statement on the rows its transaction sees; [None]
    when the server raises an error.  The values of [AppQuery] are stored
    as they are sent.  node-postgres writes an [undefined] element of an
    array parameter as NULL, and PostgreSQL fills in a column default only
    for a column that the INSERT does not list: [appQuery] lists all five
    columns, so a NULL sent for [color] or [player_count] is stored as NULL,
    on insertion as well as through [EXCLUDED] on conflict. *)
Definition exec (q : Stmt) (s : Store) : option Store :=
  match q with
  | BEGIN | COMMIT | ROLLBACK => Some s
  | TagsUpsert rows =>
      if keys_distinct rows then
        Some {| t_app := t_app s;
                t_tags := upsert rows (t_tags s);
                t_app_tags := t_app_tags s |}
      else None
  | AppQuery rows =>
      if keys_distinct rows then
        Some {| t_app := upsert rows (t_app s);
                t_tags := t_tags s;
                t_app_tags := t_app_tags s |}
      else None
  | TagsQuery rows =>
      if keys_distinct rows && forallb (references_hold s) rows then
        Some {| t_app := t_app s;
                t_tags := t_tags s;
                t_app_tags := upsert rows (t_app_tags s) |}
      else None
  end.

(** What the server does with a statement that reaches it, in a session [c]
    over the committed rows [s]: whether it answers without an error, the
    session afterwards and the committed rows afterwards.  Outside a
    transaction block every statement is its own transaction and commits as
    soon as it succeeds.  BEGIN opens a block (inside one it only draws a
    warning), whose statements change the rows that the block sees; a
    statement that fails inside a block aborts it, and every statement but
    COMMIT and ROLLBACK is then refused.  COMMIT makes the rows of the block
    the committed rows, or ends an aborted block without committing;
    ROLLBACK ends the block without committing.  The process holds one
    client at a time and nobody else writes to the tables, so the block sees
    the committed rows as they were at BEGIN. *)
Definition serve (q : Stmt) (c : Session) (s : Store)
    : bool * Session * Store :=
  match q with
  | BEGIN =>
      match c with
      | Idle => (true, Open s, s)
      | Open view => (true, Open view, s)
      | Failed => (false, Failed, s)
      end
  | COMMIT =>
      match c with
      | Open view => (true, Idle, view)
      | Idle | Failed => (true, Idle, s)
      end
  | ROLLBACK => (true, Idle, s)
  | TagsUpsert _ | AppQuery _ | TagsQuery _ =>
      match c with
      | Idle =>
          match exec q s with
          | Some s' => (true, Idle, s')
          | None => (false, Idle, s)
          end
      | Open view =>
          match exec q view with
          | Some view' => (true, Open view', s)
          | None => (false, Failed, s)
          end
      | Failed => (false, Failed, s)
      end
  end.

Section WithEnv.
Context (E : Env).

(** The world in which the session is [c] and the committed rows are [s]. *)
Definition answered (c : Session) (s : Store) (w : World) : World :=
  {| file := file w; db := s; session := c; tick := tick w |}.

(** A client taken from the pool has no transaction open.  (This program
    releases a client with a transaction still open only when its ROLLBACK
    could not be delivered; such a client has lost its connection, the
    server ends its session, which rolls the transaction back, and the pool
    does not hand it out again.) *)
Definition checkout (w : World) : World := answered Idle (db w) w.

(** [await client.query(q)]: the statement is lost in transport, in which
    case the server never sees it, or it is served and answered. *)
Definition client_query (q : Stmt) : M unit :=
  fun w =>
    if pg_query_ok E (tick w) then
      match serve q (session w) (db w) with
      | (ok, c, s) =>
          {| result := if ok then Done tt else Thrown DbError;
             after := step (answered c s w);
             events := [EQuery q ok] |}
      end
    else
      {| result := Thrown DbError; after := step w;
         events := [EQuery q false] |}.

(** [await pool.query(q)]: one statement on a client of the pool, outside
    any transaction block. *)
Definition pool_query (q : Stmt) : M unit :=
  fun w => client_query q (checkout w).

(** [await pool.connect()] *)
Definition pool_connect : M unit :=
  fun w =>
    if pg_connect_ok E (tick w)
    then {| result := Done tt; after := step (checkout w);
            events := [EConnect] |}
    else {| result := Thrown DbError; after := step w; events := [] |}.

Definition tag_row (t : Tag) : Z * string := (id t, tag_name t).

(** [insertOrUpdateTags(tags)] *)
Definition insertOrUpdateTags (tags : list Tag) : M bool :=
  try_catch
    (pool_query (TagsUpsert (tag_row <$> tags)) ;;; ret true)
    (fun _ => log_error "Error inserting or updating tags:" ;;; ret false).

(** The five arrays of [appQuery], zipped by UNNEST; an absent [color] or
    [playerCount] is sent as NULL. *)
Definition app_row (a : AppDetails) : Z * AppRow :=
  (ad_appId a,
   {| r_name := ad_name a;
      r_description := description a;
      r_color := color a;
      r_player_count := playerCount a |}).

(** The three arrays of [tagsQuery]: [flatMap] over the tags of each app. *)
Definition app_tag_rows (a : AppDetails) : list (Z * Z * Z) :=
  (fun t => (ad_appId a, tw_id t, weight t)) <$> ad_tags a.

(** The [try] block of [insertOrUpdateApps]. *)
Definition insertOrUpdateApps_try (apps : list AppDetails) : M bool :=
  client_query BEGIN ;;;
  client_query (AppQuery (app_row <$> apps)) ;;;
  client_query (TagsQuery (apps ≫= app_tag_rows)) ;;;
  client_query COMMIT ;;;
  ret true.

(** The [catch] block; an error of its ROLLBACK is not caught. *)
Definition insertOrUpdateApps_catch (e : exn) : M bool :=
  client_query ROLLBACK ;;;
  log_error "Error inserting or updating apps:" ;;;
  ret false.

(** [insertOrUpdateApps(apps)] *)
Definition insertOrUpdateApps (apps : list AppDetails) : M bool :=
  pool_connect ;;;
  finally
    (try_catch (insertOrUpdateApps_try apps) insertOrUpdateApps_catch)
    ERelease.

(** One object of the array that [json_agg(json_build_object('id',
    tags.tag_id, 'name', tags.name, 'weight', app_tags.weight))] builds; a
    field is [null] when the joined row has no value for it. *)
Record NodeTag := {
  nt_id : option Z;
  nt_name : option string;
  nt_weight : option Z
}.

(** A row of the result of the query of [getNodes]; [json_agg] gives NULL
    only for a group without rows. *)
Record NodeRow := {
  row_app_id : Z;
  row_name : string;
  row_description : string;
  row_color : option string;
  row_player_count : option Z;
  row_tags : option (list NodeTag)
}.

(** What [getNodes] hands to the frontend. *)
Record Node := {
  n_id : Z;
  n_name : string;
  n_description : string;
  n_color : option string;
  n_playerCount : option Z;
  n_tags : list NodeTag
}.

(** [app LEFT JOIN app_tags ON app.app_id = app_tags.app_id LEFT JOIN tags
    ON app_tags.tag_id = tags.tag_id], for one app: one joined row per
    association of the app, or, for an app without association, one row
    whose [app_tags] and [tags] columns are all NULL. *)
Definition joined_tags (s : Store) (app_id : Z) : list NodeTag :=
  match filter (λ r, r.1.1 = app_id) (map_to_list (t_app_tags s)) with
  | [] => [ {| nt_id := None; nt_name := None; nt_weight := None |} ]
  | assoc =>
      (λ r, {| nt_id := (λ _, r.1.2) <$> t_tags s !! r.1.2;
               nt_name := t_tags s !! r.1.2;
               nt_weight := Some r.2 |}) <$> assoc
  end.

(** The query of [getNodes]: [GROUP BY app.app_id] gives one row per app.
    The statement has no ORDER BY: rows and array elements come in an order
    the server chooses, here the one of the tables' enumeration. *)
Definition select_nodes (s : Store) : list NodeRow :=
  (λ r, {| row_app_id := r.1;
           row_name := r_name r.2;
           row_description := r_description r.2;
           row_color := r_color r.2;
           row_player_count := r_player_count r.2;
           row_tags := Some (joined_tags s r.1) |}) <$> map_to_list (t_app s).

(** [response.rows.map((row) => ...)] *)
Definition to_Node (row : NodeRow) : Node :=
  {| n_id := row_app_id row;
     n_name := row_name row;
     n_description := row_description row;
     n_color := row_color row;
     n_playerCount := row_player_count row;
     n_tags := default [] (row_tags row) |}.

(** [await pool.query(`SELECT ...`)]: a read of the committed rows, which
    leaves them alone and is not recorded among the statements of the
    trace. *)
Definition pool_select : M (list NodeRow) :=
  fun w =>
    if pg_query_ok E (tick w)
    then {| result := Done (select_nodes (db w)); after := step w;
            events := [] |}
    else {| result := Thrown DbError; after := step w; events := [] |}.

(** [getNodes()] *)
Definition getNodes : M (list Node) :=
  try_catch
    (let* rows := pool_select in ret (to_Node <$> rows))
    (fun _ => log_error "Error fetching nodes:" ;;; ret []).

End WithEnv.
End database.

(** ** jobs.ts *)

Module jobs.
Section WithEnv.
Context (E : Env).

(** The object [{}] *)
Definition empty_data : DataJson :=
  {| lastTagHash := None; lastAppTime := None |}.

(** [getDataJson()]: any failure to read or parse gives [{}]. *)
Definition getDataJson : M DataJson :=
  fun w =>
    {| result := Done (if fs_read_ok E (tick w)
                       then default empty_data (file w)
                       else empty_data);
       after := step w;
       events := [] |}.

(** The world in which [data.json] holds [contents]. *)
Definition with_file (contents : option DataJson) (w : World) : World :=
  {| file := contents; db := db w; session := session w; tick := tick w |}.

(** [await fs.promises.writeFile('data.json', JSON.stringify(data))].  The
    file is opened with flag ['w'], which truncates it, and the text is
    written next.  A write that fails either was refused before the file was
    opened, and the previous contents are still there, or failed after the
    truncation, and the file is left empty or with the beginning of the
    text, neither of which [JSON.parse] accepts. *)
Definition writeFile (data : DataJson) : M unit :=
  fun w =>
    if fs_write_ok E (tick w)
    then {| result := Done tt;
            after := step (with_file (Some data) w);
            events := [EWriteFile data true] |}
    else {| result := Thrown FsError;
            after := step (if fs_write_torn E (tick w)
                           then with_file None w else w);
            events := [EWriteFile data false] |}.

(** [setDataJson(data)] *)
Definition setDataJson (data : DataJson) : M unit :=
  try_catch (writeFile data)
    (fun _ => log_error "Failed to write data.json:").

(** JavaScript truthiness of an optional number: [undefined] and [0] are
    falsy. *)
Definition truthy (x : option Z) : bool :=
  match x with
  | Some n => negb (n =? 0)%Z
  | None => false
  end.

(** The fetch step of [syncSteamTags]: incremental when a hash is
    stored, full otherwise. *)
Definition fetchTags (data : DataJson) : M TagList :=
  if truthy (lastTagHash data)
  then steam.getTagList E (lastTagHash data)
  else steam.getTagList E None.

(** [syncSteamTags()] *)
Definition syncSteamTags : M unit :=
  let* data := getDataJson in
  let* tagList := fetchTags data in
  if decide (length (tags tagList) = 0) then
    log "No new Steam tags found"
  else
    let* ok := database.insertOrUpdateTags E (tags tagList) in
    if negb ok then ret tt
    else
      let data := {| lastTagHash := tagHash tagList;
                     lastAppTime := lastAppTime data |} in
      setDataJson data ;;;
      log "Steam tags synced".

(** The fetch step of [syncSteamApps]: incremental when a time is
    stored, full (and announced) otherwise. *)
Definition fetchApps (fuel : nat) (data : DataJson) : M AppList :=
  if truthy (lastAppTime data)
  then steam.getSteamApps E fuel (lastAppTime data)
  else
    log ("Looks like this is the first time syncing all apps with Steam."
         +:+ " This may take a while.") ;;;
    let* appList := steam.getSteamApps E fuel None in
    log ("Syncing details from " +:+ pretty (length (al_apps appList))
         +:+ " apps. This will take a long time.") ;;;
    ret appList.

(** [syncSteamApps()] *)
Definition syncSteamApps (fuel : nat) : M unit :=
  let* data := getDataJson in
  let* appList := fetchApps fuel data in
  if decide (length (al_apps appList) = 0) then
    log "No new or updated Steam apps found"
  else
    let* appDetails :=
      steam.getSteamAppDetails E (appId <$> al_apps appList) in
    let* ok := database.insertOrUpdateApps E appDetails in
    if negb ok then ret tt
    else
      let data := {| lastTagHash := lastTagHash data;
                     lastAppTime := Some (time appList) |} in
      setDataJson data ;;;
      log "Steam apps synced".

(** [syncWithSteam()] *)
Definition syncWithSteam (fuel : nat) : M unit :=
  log "Syncing with Steam..." ;;;
  syncSteamTags ;;;
  syncSteamApps fuel ;;;
  log "Syncing with Steam done".

End WithEnv.
End jobs.

(** ** Concrete remotes and worlds used to exercise the model *)

Module Examples.
Local Open Scope Z_scope.

Definition empty_store : Store :=
  {| t_app := ∅; t_tags := ∅; t_app_tags := ∅ |}.

(** A fresh installation: no [data.json], empty tables. *)
Definition fresh : World :=
  {| file := None; db := empty_store; session := Idle; tick := 0 |}.

(** An environment in which the clock shows 1000, the host never fails to
    read or to connect, and a write of [data.json] that fails does so after
    the file was truncated (as on a full disk). *)
Definition mk_env
    (applist : nat -> Request -> Fetch AppListBody)
    (items : nat -> Request -> Fetch ItemsBody)
    (taglist : nat -> Request -> Fetch TagListBody)
    (players : nat -> Request -> Fetch PlayersBody)
    (fs_write pg_query : nat -> bool) : Env :=
  {| clock := fun _ => 1000;
     remote_applist := applist;
     remote_items := items;
     remote_taglist := taglist;
     remote_players := players;
     fs_read_ok := fun _ => true;
     fs_write_ok := fs_write;
     fs_write_torn := fun _ => true;
     pg_connect_ok := fun _ => true;
     pg_query_ok := pg_query |}.

Definition always (b : bool) : nat -> bool := fun _ => b.
Definition unreachable {B} : nat -> Request -> Fetch B := fun _ _ => Reject.
Definition answers {B} (body : B) : nat -> Request -> Fetch B :=
  fun _ _ => Resp true "OK" (Some body).

Definition page (ids : list Z) (more : bool) (last : option Z)
    : AppListResponse :=
  {| apps := Some ((fun i => {| appid := i; ra_name := "Game" |}) <$> ids);
     have_more_results := more;
     last_appid := last |}.

(** The listing served in pages, chosen by the cursor of the request. *)
Definition paged (pages : Z -> option AppListResponse)
    : nat -> Request -> Fetch AppListBody :=
  fun _ r =>
    match r with
    | GetAppList _ cursor _ =>
        match pages cursor with
        | Some p => Resp true "OK" (Some {| al_response := Some p |})
        | None => Reject
        end
    | _ => Reject
    end.

(** A store item carrying tag 1 with weight 5; items with a negative id
    are flagged as unavailable in the requested country. *)
Definition item (i : Z) : StoreItem :=
  {| si_appid := i;
     si_name := "Game";
     full_description := "About the game";
     si_tags := Some [ {| tw_tagid := 1; tw_weight := 5 |} ];
     unvailable_for_country_restriction := bool_decide (i < 0) |}.

(** The detail endpoint answering every chunk with exactly its items. *)
Definition catalog : nat -> Request -> Fetch ItemsBody :=
  fun _ r =>
    match r with
    | GetItems ids =>
        Resp true "OK"
          (Some {| it_response :=
                     Some {| store_items := Some (item <$> ids) |} |})
    | _ => Reject
    end.

Definition two_tags : TagListBody :=
  {| tl_response :=
       Some {| tl_tags := Some [ {| tagid := 1; rt_name := "Action" |};
                                 {| tagid := 2; rt_name := "RPG" |} ];
               version_hash := Some 77 |} |}.

Definition no_tags : TagListBody :=
  {| tl_response := Some {| tl_tags := Some []; version_hash := Some 77 |} |}.

Definition one_page : Z -> option AppListResponse :=
  fun _ => Some (page [10] false None).

(** Everything works: two tags with hash 77, one updated app (10). *)
Definition healthy : Env :=
  mk_env (paged one_page) catalog (answers two_tags) unreachable
         (always true) (always true).

(** Steam cannot be reached at all. *)
Definition offline : Env :=
  mk_env unreachable unreachable unreachable unreachable
         (always true) (always true).

(** Only the tag endpoint is down. *)
Definition tags_down : Env :=
  mk_env (paged one_page) catalog unreachable unreachable
         (always true) (always true).

(** The disk is full: every write of [data.json] fails, after the file
    was truncated. *)
Definition disk_full : Env :=
  mk_env (paged one_page) catalog (answers two_tags) unreachable
         (always false) (always true).

(** The database refuses every statement. *)
Definition db_down : Env :=
  mk_env (paged one_page) catalog (answers two_tags) unreachable
         (always true) (always false).

(** Nothing changed remotely: no tags, an empty first page. *)
Definition steady : Env :=
  mk_env (paged (fun _ => Some (page [] false None))) catalog
         (answers no_tags) unreachable (always true) (always true).

(** An empty first page that nevertheless announces more results, followed
    by a page holding app 7. *)
Definition empty_then_more : Z -> option AppListResponse :=
  fun cursor =>
    if bool_decide (cursor = 0) then Some (page [] true (Some 5))
    else Some (page [7] false None).

Definition hiccup : Env :=
  mk_env (paged empty_then_more) catalog (answers two_tags) unreachable
         (always true) (always true).

(** Three pages: [1;2] then [3] then [4;5]. *)
Definition three_pages : Z -> option AppListResponse :=
  fun cursor =>
    if bool_decide (cursor = 0) then Some (page [1; 2] true (Some 2))
    else if bool_decide (cursor = 2) then Some (page [3] true (Some 3))
    else Some (page [4; 5] false None).

Definition paginated : Env :=
  mk_env (paged three_pages) catalog (answers two_tags) unreachable
         (always true) (always true).

(** The player-count endpoint answering 404, a body without [response],
    and a body with and without [player_count]. *)
Definition players_env (answer : Fetch PlayersBody) : Env :=
  mk_env unreachable unreachable unreachable (fun _ _ => answer)
         (always true) (always true).

(** A world whose tables already hold tag 1 and app 10 with a colour. *)
Definition populated : World :=
  {| file := Some {| lastTagHash := Some 77; lastAppTime := Some 500 |};
     db := {| t_app := {[ 10 := {| r_name := "Old name";
                                    r_description := "Old text";
                                    r_color := Some "#ff0000";
                                    r_player_count := Some 42 |} ]};
              t_tags := {[ 1 := "Action" ]};
              t_app_tags := ∅ |};
     session := Idle;
     tick := 0 |}.

(** A batch whose only app carries a tag (99) the tag table lacks. *)
Definition dangling : list AppDetails :=
  [ {| ad_appId := 10; ad_name := "New name"; description := "New text";
       ad_tags := [ {| tw_id := 99; weight := 3 |} ];
       color := None; playerCount := None |} ].

(** A first page [1;2] announcing more, after which Steam is unreachable. *)
Definition flaky : Env :=
  mk_env (paged (λ cursor, if bool_decide (cursor = 0)
                           then Some (page [1; 2] true (Some 2)) else None))
         catalog (answers two_tags) unreachable (always true) (always true).

(** A first page [1;2] announcing more, followed by an empty page. *)
Definition dries_up : Env :=
  mk_env (paged (λ cursor, if bool_decide (cursor = 0)
                           then Some (page [1; 2] true (Some 2))
                           else Some (page [] false None)))
         catalog (answers two_tags) unreachable (always true) (always true).

(** A first page [1;2] announcing more without saying from where. *)
Definition cursorless : Env :=
  mk_env (paged (λ _, Some (page [1; 2] true None)))
         catalog (answers two_tags) unreachable (always true) (always true).

(** Every page holds app 1 and announces more. *)
Definition endless : Env :=
  mk_env (paged (λ _, Some (page [1] true (Some 1))))
         catalog (answers two_tags) unreachable (always true) (always true).

(** A detail endpoint that answers every id [i] with the item of
    [i + 1000]. *)
Definition mislabelled : Env :=
  mk_env (paged one_page)
         (λ _ r, match r with
                 | GetItems ids =>
                     Resp true "OK"
                       (Some {| it_response :=
                                  Some {| store_items :=
                                            Some (item <$> ((λ i, i + 1000)
                                                              <$> ids)) |} |})
                 | _ => Reject
                 end)
         (answers two_tags) unreachable (always true) (always true).

(** A detail endpoint that serves chunks starting at an id up to 250 and
    turns the others down. *)
Definition throttled : Env :=
  mk_env (paged one_page)
         (λ t r, match r with
                 | GetItems (i :: _) =>
                     if bool_decide (i ≤ 250) then catalog t r
                     else Resp false "Too Many Requests" None
                 | _ => Reject
                 end)
         (answers two_tags) unreachable (always true) (always true).

(** Everything works, except that [data.json] cannot be read. *)
Definition unreadable : Env :=
  {| clock := fun _ => 1000;
     remote_applist := paged one_page;
     remote_items := catalog;
     remote_taglist := answers two_tags;
     remote_players := unreachable;
     fs_read_ok := always false;
     fs_write_ok := always true;
     fs_write_torn := always true;
     pg_connect_ok := always true;
     pg_query_ok := always true |}.

(** The only updated app (-5) is unavailable in the requested country. *)
Definition all_flagged : Env :=
  mk_env (paged (λ _, Some (page [-5] false None))) catalog
         (answers two_tags) unreachable (always true) (always true).

(** [data.json] may not be written: every write is refused before the
    file is opened. *)
Definition read_only : Env :=
  {| clock := fun _ => 1000;
     remote_applist := paged one_page;
     remote_items := catalog;
     remote_taglist := answers two_tags;
     remote_players := unreachable;
     fs_read_ok := always true;
     fs_write_ok := always false;
     fs_write_torn := always false;
     pg_connect_ok := always true;
     pg_query_ok := always true |}.

(** The connection to the database is lost after the third external call:
    a client connected at moment 0 gets BEGIN and its first statement
    through, and nothing after that. *)
Definition cut_off : Env :=
  mk_env (paged one_page) catalog (answers two_tags) unreachable
         (always true) (λ t, bool_decide (t < 3)%nat).

(** A first page whose response has no array of apps: the body
    [{"response":{}}]. *)
Definition nothing_updated : Env :=
  mk_env (paged (λ _, Some {| apps := None; have_more_results := false;
                              last_appid := None |}))
         catalog (answers no_tags) unreachable (always true) (always true).

(** 600 requested ids: 1, 2, ..., 600. *)
Definition six_hundred : list Z := Z.of_nat <$> seq 1 600.

End Examples.

(** * Vocabulary of the specification *)

(** A run leaves [data.json] and the tables as it found them. *)
Definition untouched {A} (r : Run A) (w : World) : Prop :=
  file (after r) = file w ∧ db (after r) = db w.

(** An event that is a request to Steam. *)
Definition is_fetch (e : Event) : Prop :=
  match e with EFetch _ => True | _ => False end.

(** The listing endpoint answers the successive requests of one call with
    the pages [ps], each request carrying the cursor the previous page
    returned in [last_appid]; [t] is the moment of the first request. *)
Fixpoint serves (E : Env) (lastTime : Z) (t : nat) (cursor : option Z)
    (ps : list AppListResponse) : Prop :=
  match ps with
  | [] => True
  | p :: ps' =>
      ∃ c statusText,
        cursor = Some c ∧
        remote_applist E t (GetAppList lastTime c 50000) =
          Resp true statusText (Some {| al_response := Some p |}) ∧
        serves E lastTime (S t) (last_appid p) ps'
  end.

(** The requests that fetch the pages [ps] one after the other. *)
Fixpoint requests (lastTime : Z) (cursor : option Z)
    (ps : list AppListResponse) : list Request :=
  match ps with
  | [] => []
  | p :: ps' =>
      GetAppList lastTime (default 0%Z cursor) 50000
        :: requests lastTime (last_appid p) ps'
  end.

(** The identifiers a page carries. *)
Definition page_ids (p : AppListResponse) : list RemoteApp :=
  default [] (apps p).

(** Asked for the chunk [c] at moment [t], the detail endpoint answers with
    exactly one item per requested id, in any order; [item_of] names the item
    that belongs to an id. *)
Definition answers_chunk (E : Env) (item_of : Z → StoreItem) (t : nat)
    (c : list Z) : Prop :=
  ∃ st items,
    remote_items E t (GetItems c) =
      Resp true st
        (Some {| it_response := Some {| store_items := Some items |} |}) ∧
    items ≡ₚ item_of <$> c.

(** The detail endpoint so answers the chunks [cs], asked one after the
    other from moment [t] on. *)
Definition answers_chunks (E : Env) (item_of : Z → StoreItem) (t : nat)
    (cs : list (list Z)) : Prop :=
  ∀ k c, cs !! k = Some c → answers_chunk E item_of (t + k) c.

(** An event that is a write of [data.json], attempted or done. *)
Definition is_write (e : Event) : Prop :=
  match e with EWriteFile _ _ => True | _ => False end.

(** An event that touches neither the store nor [data.json]: a line on the
    console or a request to Steam. *)
Definition quiet (e : Event) : Prop :=
  match e with Log _ | EFetch _ => True | _ => False end.

(** The event by which the store confirms the write of a feed: the upsert of
    the tags for the taxonomy feed, the COMMIT for the catalog feed. *)
Definition tags_written (e : Event) : Prop :=
  ∃ rows, e = EQuery (TagsUpsert rows) true.

Definition apps_written (e : Event) : Prop := e = EQuery COMMIT true.

(** In a trace, every write of [data.json] comes after a confirmation. *)
Definition guarded_by (confirmed : Event → Prop) (evs : list Event) : Prop :=
  ∀ pre d ok post,
    evs = pre ++ EWriteFile d ok :: post → ∃ e, e ∈ pre ∧ confirmed e.

(** What [getDataJson] hands to a feed that starts in world [w]. *)
Definition stored (E : Env) (w : World) : DataJson :=
  if fs_read_ok E (tick w) then default jobs.empty_data (file w)
  else jobs.empty_data.

(** The watermarks that [data.json] holds, none when it cannot be
    parsed. *)
Definition persisted (w : World) : DataJson :=
  default jobs.empty_data (file w).

(** The discipline of a feed [feed] whose fetch step ran as [fetch]: a
    write of the file is attempted only after the store confirmed; what the
    fetch throws, the feed throws; a feed that throws, and a feed whose store
    write reports failure (it logs [failure]), leave the file and the tables
    as they were; a feed that attempts no write leaves the file as it was;
    and a successful write stores exactly the record [advance a] built from
    the value [a] that the fetch step returned. *)
Definition watermark_discipline {A} (confirmed : Event → Prop)
    (failure : string) (advance : A → DataJson)
    (fetch : Run A) (feed : Run unit) (w : World) : Prop :=
  guarded_by confirmed (events feed) ∧
  (∀ e, result fetch = Thrown e → result feed = Thrown e) ∧
  (∀ e, result feed = Thrown e → untouched feed w) ∧
  (LogError failure ∈ events feed → untouched feed w) ∧
  ((∀ d ok, EWriteFile d ok ∉ events feed) → file (after feed) = file w) ∧
  (∀ d, EWriteFile d true ∈ events feed →
        file (after feed) = Some d ∧
        ∃ a, result fetch = Done a ∧ d = advance a).

(** The two shapes the run of a feed can take.  Either it attempts no write
    of [data.json] and leaves the file and the tables alone, ... *)
Definition idle {A} (fetch : Run A) (feed : Run unit) (w : World) : Prop :=
  Forall (λ e, ¬ is_write e) (events feed) ∧
  untouched feed w ∧
  (∀ e, result fetch = Thrown e → result feed = Thrown e).

(** ... or, after the store confirmed, it attempts one write of the record
    built from what the fetch returned, logs the failure of that write if it
    fails, announces [done_msg] and returns.  A write that failed has left
    the file as it was or without contents that can be parsed. *)
Definition saved {A} (confirmed : Event → Prop) (failure : string)
    (advance : A → DataJson) (done_msg : string)
    (fetch : Run A) (feed : Run unit) (w : World) : Prop :=
  ∃ pre a ok e,
    events feed =
      pre ++ EWriteFile (advance a) ok
          :: (if ok then [] else [LogError "Failed to write data.json:"])
          ++ [Log done_msg] ∧
    Forall (λ e, ¬ is_write e) pre ∧
    e ∈ pre ∧ confirmed e ∧
    (LogError failure ∉ pre) ∧
    result fetch = Done a ∧
    result feed = Done tt ∧
    (if ok then file (after feed) = Some (advance a)
     else file (after feed) = file w ∨ file (after feed) = None).

(** * Vocabulary of the further properties *)

(** The run [r] with the events [evs] in front of its own. *)
Definition after_events {A} (evs : list Event) (r : Run A) : Run A :=
  {| result := result r; after := after r; events := evs ++ events r |}.

(** The world after [n] external calls that change neither the file nor
    the tables. *)
Definition later (n : nat) (w : World) : World := Nat.iter n step w.

(** The cursor that the listing holds after the pages [ps]. *)
Definition cursor_after (cursor : option Z) (ps : list AppListResponse)
    : option Z :=
  foldl (λ _ p, last_appid p) cursor ps.

(** The error with which the three throwing fetchers of steam.ts answer a
    request that did not give a parsed body: the rejection of [fetch], the
    error built from [statusText] after the prefix [what], or the rejection
    of [response.json()]. *)
Definition fetch_failure {B} (what : string) (answer : Fetch B)
    : option exn :=
  match answer with
  | Reject => Some NetworkError
  | Resp false statusText _ => Some (HttpError (what +:+ statusText))
  | Resp true _ None => Some SyntaxError
  | Resp true _ (Some _) => None
  end.

(** The detail endpoint answers the chunks [cs], asked one after the other
    from moment [t] on, with the item lists [itemss], whatever these hold. *)
Fixpoint delivers (E : Env) (t : nat) (cs : list (list Z))
    (itemss : list (list StoreItem)) : Prop :=
  match cs, itemss with
  | [], [] => True
  | c :: cs', items :: itemss' =>
      (∃ st, remote_items E t (GetItems c) =
               Resp true st
                 (Some {| it_response :=
                            Some {| store_items := Some items |} |})) ∧
      delivers E (S t) cs' itemss'
  | _, _ => False
  end.

(** The database accepts every connection and answers every statement. *)
Definition reachable (E : Env) : Prop :=
  (∀ t, pg_connect_ok E t = true) ∧ (∀ t, pg_query_ok E t = true).

(** The tables after both statements of [insertOrUpdateApps]. *)
Definition with_apps (apps : list AppDetails) (s : Store) : Store :=
  {| t_app := database.upsert (database.app_row <$> apps) (t_app s);
     t_tags := t_tags s;
     t_app_tags :=
       database.upsert (apps ≫= database.app_tag_rows) (t_app_tags s) |}.

(** The constraints under which PostgreSQL accepts the two statements of
    [insertOrUpdateApps]: no app id and no (app id, tag id) pair is proposed
    twice, and every proposed tag id is a row of [tags]. *)
Definition acceptable (apps : list AppDetails) (s : Store) : Prop :=
  NoDup (ad_appId <$> apps) ∧
  NoDup (apps ≫= database.app_tag_rows).*1 ∧
  Forall (λ row, is_Some (t_tags s !! row.1.2))
    (apps ≫= database.app_tag_rows).

(** An event between the connection and the release of a client. *)
Definition is_statement (e : Event) : Prop :=
  match e with EQuery _ _ | LogError _ => True | _ => False end.

(** * Properties *)

Local Open Scope js_scope.

(** ** The remote catalog client (steam.ts) *)

Section SteamFacts.
Context (E : Env).
Import steam.

(** The client only talks to Steam: whatever it does leaves [data.json]
    and the tables alone, and every event is a request. *)
Lemma getSteamApps_loop_frame fuel lastTime time cursor acc w :
  let r := getSteamApps_loop E fuel lastTime time cursor acc w in
  untouched r w ∧ Forall is_fetch (events r).
Proof.
  revert cursor acc w.
  induction fuel as [|fuel IH]; intros cursor acc w; simpl.
  { by split. }
  destruct cursor as [c|]; [|by split].
  unfold bind, fetch; simpl.
  destruct (remote_applist E (tick w) _) as [|[] st [data|]];
    simpl; try (split; [done | by repeat constructor]).
  destruct (page_is_empty data); simpl;
    [split; [done | by repeat constructor]|].
  destruct (al_response data) as [resp|]; simpl;
    [|split; [done | by repeat constructor]].
  destruct (have_more_results resp); simpl;
    [|split; [done | by repeat constructor]].
  specialize (IH (last_appid resp) (acc ++ page_apps data) (step w)).
  destruct (getSteamApps_loop E fuel _ _ _ _ _) as [res aft evs].
  destruct IH as [[Hf Hd] Hev]. simpl in *.
  split; [done | by constructor].
Qed.

Lemma getSteamApps_frame fuel lastTime w :
  let r := getSteamApps E fuel lastTime w in
  untouched r w ∧ Forall is_fetch (events r).
Proof.
  unfold getSteamApps, bind, now; simpl.
  pose proof (getSteamApps_loop_frame fuel (default 0%Z lastTime)
                (clock E (tick w)) (Some 0%Z) [] (step w)) as H.
  destruct (getSteamApps_loop E fuel _ _ _ _ _) as [res aft evs].
  by destruct H as [[Hf Hd] Hev].
Qed.

Lemma getSteamAppDetails_loop_frame cs acc w :
  let r := getSteamAppDetails_loop E cs acc w in
  untouched r w ∧ Forall is_fetch (events r).
Proof.
  revert acc w.
  induction cs as [|c cs IH]; intros acc w; simpl.
  { by split. }
  unfold bind, fetch; simpl.
  destruct (remote_items E (tick w) _) as [|[] st [data|]];
    simpl; try (split; [done | by repeat constructor]).
  destruct (it_response data) as [resp|]; simpl;
    [|split; [done | by repeat constructor]].
  destruct (store_items resp) as [items|]; simpl;
    [|split; [done | by repeat constructor]].
  specialize (IH (acc ++ available items) (step w)).
  destruct (getSteamAppDetails_loop E _ _ _) as [res aft evs].
  destruct IH as [[Hf Hd] Hev]. simpl in *.
  split; [done | by constructor].
Qed.

Lemma getSteamAppDetails_frame appIds w :
  let r := getSteamAppDetails E appIds w in
  untouched r w ∧ Forall is_fetch (events r).
Proof.
  unfold getSteamAppDetails, bind; simpl.
  pose proof (getSteamAppDetails_loop_frame (chunks appIds) [] w) as H.
  destruct (getSteamAppDetails_loop E _ _ _) as [[items| |] aft evs];
    destruct H as [[Hf Hd] Hev]; simpl in *; rewrite ?app_nil_r; done.
Qed.

Lemma getTagList_frame h w :
  let r := getTagList E h w in
  untouched r w ∧ Forall is_fetch (events r).
Proof.
  unfold getTagList, bind, fetch; simpl.
  destruct (remote_taglist E (tick w) _) as [|[] st [data|]];
    simpl; try (split; [done | by repeat constructor]).
  destruct (tl_response data); simpl; split; by repeat constructor.
Qed.

End SteamFacts.

Section Listing.
Context (E : Env).
Import steam.

(** A page whose identifier array is present and empty ends the listing
    on the spot, whatever else the page says. *)
Lemma getSteamApps_loop_empty_page fuel lastTime time c acc w st resp :
  remote_applist E (tick w) (GetAppList lastTime c 50000) =
    Resp true st (Some {| al_response := Some resp |}) →
  apps resp = Some [] →
  getSteamApps_loop E (S fuel) lastTime time (Some c) acc w =
    {| result := Done {| al_apps := []; time := lastTime |};
       after := step w;
       events := [EFetch (GetAppList lastTime c 50000)] |}.
Proof.
  intros Hpage Hempty. simpl. unfold bind, fetch; simpl.
  rewrite Hpage. unfold page_is_empty; simpl. by rewrite Hempty.
Qed.

(** Pages without an empty identifier array are followed until the first
    one whose more-results flag is off. *)
Lemma getSteamApps_loop_pages ps : ∀ pl fuel lastTime time cursor acc w,
  serves E lastTime (tick w) cursor (ps ++ [pl]) →
  Forall (λ p, apps p ≠ Some []) (ps ++ [pl]) →
  Forall (λ p, have_more_results p = true) ps →
  have_more_results pl = false →
  length ps < fuel →
  let r := getSteamApps_loop E fuel lastTime time cursor acc w in
  result r =
    Done {| al_apps := to_App <$> (acc ++ concat (page_ids <$> (ps ++ [pl])));
            time := time |} ∧
  events r = EFetch <$> requests lastTime cursor (ps ++ [pl]).
Proof.
  induction ps as [|p ps IH];
    intros pl fuel lastTime time cursor acc w Hserves Hfull Hmore Hlast Hfuel.
  - destruct fuel as [|fuel]; [simpl in Hfuel; lia|].
    simpl in Hserves. destruct Hserves as (c & st & -> & Hpage & _).
    simpl in Hfull. rewrite Forall_singleton in Hfull.
    simpl. unfold bind, fetch; simpl. rewrite Hpage.
    unfold page_is_empty, page_apps, page_ids; simpl.
    destruct (apps pl) as [[|a l]|] eqn:Hl; [done| |];
      rewrite Hlast; simpl; by rewrite ?app_nil_r.
  - destruct fuel as [|fuel]; [simpl in Hfuel; lia|].
    simpl in Hserves. destruct Hserves as (c & st & -> & Hpage & Hrest).
    simpl in Hfull. rewrite Forall_cons in Hfull. destruct Hfull as [Hp Hfull].
    rewrite Forall_cons in Hmore. destruct Hmore as [Hpm Hmore].
    simpl in Hfuel.
    specialize (IH pl fuel lastTime time (last_appid p)
                  (acc ++ page_ids p) (step w) Hrest Hfull Hmore Hlast
                  ltac:(lia)).
    cbn [getSteamApps_loop]. unfold bind, fetch.
    rewrite Hpage.
    replace (page_is_empty {| al_response := Some p |}) with false
      by (unfold page_is_empty; simpl; by destruct (apps p) as [[|??]|]).
    cbn [al_response]. rewrite Hpm.
    replace (page_apps {| al_response := Some p |}) with (page_ids p)
      by done.
    destruct (getSteamApps_loop E fuel _ _ _ _ _) as [res aft evs].
    destruct IH as [IHr IHe]. simpl in *. subst.
    split; [|done]. by rewrite <- app_assoc.
Qed.

End Listing.

(** When the first page of the listing carries an identifier array of
    length zero, [getSteamApps] returns at once, after that single request,
    with no identifiers and with the input [lastTime] (0 when omitted), not
    the time at which the fetch started. *)
Lemma getSteamApps_empty_first_page E fuel lastTime w statusText resp :
  remote_applist E (S (tick w)) (GetAppList (default 0%Z lastTime) 0 50000) =
    Resp true statusText (Some {| al_response := Some resp |}) →
  apps resp = Some [] →
  steam.getSteamApps E (S fuel) lastTime w =
    {| result := Done {| al_apps := []; time := default 0%Z lastTime |};
       after := step (step w);
       events := [EFetch (GetAppList (default 0%Z lastTime) 0 50000)] |}.
Proof.
  intros Hpage Hempty. unfold steam.getSteamApps, bind, steam.now.
  by rewrite (getSteamApps_loop_empty_page E fuel _ _ _ _ (step w)
                statusText resp Hpage Hempty).
Qed.

(** The guard of [getSteamApps] looks at the length of the identifier
    array.  A first page that has no such array at all is not caught by it:
    the listing ends through the more-results flag, with no identifiers and
    with the time at which the fetch started. *)
Lemma getSteamApps_first_page_without_array E fuel lastTime w statusText
    resp :
  remote_applist E (S (tick w)) (GetAppList (default 0%Z lastTime) 0 50000) =
    Resp true statusText (Some {| al_response := Some resp |}) →
  apps resp = None → have_more_results resp = false →
  steam.getSteamApps E (S fuel) lastTime w =
    {| result := Done {| al_apps := []; time := clock E (tick w) |};
       after := step (step w);
       events := [EFetch (GetAppList (default 0%Z lastTime) 0 50000)] |}.
Proof.
  intros Hpage Hnone Hlast. unfold steam.getSteamApps, steam.now.
  cbn [steam.getSteamApps_loop]. unfold bind, steam.fetch.
  cbn [tick step]. rewrite Hpage.
  unfold steam.page_is_empty, steam.page_apps. cbn [al_response].
  by rewrite Hnone, Hlast.
Qed.

(** C3 does not hold on the code.  A first page can hold zero identifiers
    in two ways, and [getSteamApps] itself reads both as no identifier
    ([data.response?.apps ?? []]).  When the array is there and empty, the
    guard [data.response?.apps?.length === 0] fires and the call returns, as
    claimed, no identifier and the input [lastTime].  When the response has
    no array, the guard compares [undefined] with 0 and does not fire: the
    listing ends through the more-results flag, and the call returns no
    identifier with the time at which the fetch started, not the input
    [lastTime].  In both cases it has sent that single request. *)
Theorem getSteamApps_first_page_without_identifiers E fuel lastTime w
    statusText resp :
  remote_applist E (S (tick w)) (GetAppList (default 0%Z lastTime) 0 50000) =
    Resp true statusText (Some {| al_response := Some resp |}) →
  page_ids resp = [] →
  let r := steam.getSteamApps E (S fuel) lastTime w in
  (is_Some (apps resp) →
     result r = Done {| al_apps := []; time := default 0%Z lastTime |} ∧
     events r = [EFetch (GetAppList (default 0%Z lastTime) 0 50000)]) ∧
  (apps resp = None → have_more_results resp = false →
     result r = Done {| al_apps := []; time := clock E (tick w) |} ∧
     events r = [EFetch (GetAppList (default 0%Z lastTime) 0 50000)]).
Proof.
  intros Hpage Hzero r. subst r. split.
  - intros [ids Hids].
    assert (apps resp = Some []) as Hempty.
    { unfold page_ids in Hzero. rewrite Hids in Hzero. simpl in Hzero.
      by subst ids. }
    by rewrite (getSteamApps_empty_first_page E fuel lastTime w statusText
                  resp Hpage Hempty).
  - intros Hnone Hlast.
    by rewrite (getSteamApps_first_page_without_array E fuel lastTime w
                  statusText resp Hpage Hnone Hlast).
Qed.

Lemma getSteamApps_first_page_without_identifiers_witness :
  let r := steam.getSteamApps Examples.nothing_updated 1 (Some 500%Z)
             Examples.fresh in
  result r = Done {| al_apps := []; time := 1000%Z |} ∧
  events r = [EFetch (GetAppList 500 0 50000)] ∧
  result r ≠ Done {| al_apps := []; time := 500%Z |}.
Proof.
  destruct (getSteamApps_first_page_without_identifiers
              Examples.nothing_updated 0 (Some 500%Z) Examples.fresh "OK"
              {| apps := None; have_more_results := false;
                 last_appid := None |} eq_refl eq_refl) as [_ Hnone].
  destruct (Hnone eq_refl eq_refl) as [Hr He].
  split; [exact Hr|]. split; [exact He|]. rewrite Hr. discriminate.
Defined.

(** C6 (as amended). [getSteamApps] asks for the first page with cursor 0
    and for every further page with the [last_appid] the previous page
    returned.  As long as no page arrives with an identifier array of length
    zero, it stops exactly at the first page whose more-results flag is off:
    it has then sent one request per page and returns the identifiers of all
    pages, concatenated in order, with the time at which the fetch started. *)
Theorem getSteamApps_pagination E fuel lastTime w ps pl :
  serves E (default 0%Z lastTime) (S (tick w)) (Some 0%Z) (ps ++ [pl]) →
  Forall (λ p, apps p ≠ Some []) (ps ++ [pl]) →
  Forall (λ p, have_more_results p = true) ps →
  have_more_results pl = false →
  length ps < fuel →
  let r := steam.getSteamApps E fuel lastTime w in
  result r =
    Done {| al_apps := steam.to_App <$> concat (page_ids <$> (ps ++ [pl]));
            time := clock E (tick w) |} ∧
  events r = EFetch <$> requests (default 0%Z lastTime) (Some 0%Z) (ps ++ [pl]).
Proof.
  intros Hserves Hfull Hmore Hlast Hfuel.
  pose proof (getSteamApps_loop_pages E ps pl fuel (default 0%Z lastTime)
                (clock E (tick w)) (Some 0%Z) [] (step w)
                Hserves Hfull Hmore Hlast Hfuel) as H.
  unfold steam.getSteamApps, bind, steam.now.
  destruct (steam.getSteamApps_loop E fuel _ _ _ _ _) as [res aft evs].
  destruct H as [Hr He]. simpl in *. by subst.
Qed.

Lemma getSteamApps_pagination_witness :
  let r := steam.getSteamApps Examples.paginated 3 None Examples.fresh in
  result r =
    Done {| al_apps := (λ i, {| appId := i; name := "Game" |})
                         <$> [1; 2; 3; 4; 5]%Z;
            time := 1000%Z |} ∧
  events r = [EFetch (GetAppList 0 0 50000); EFetch (GetAppList 0 2 50000);
              EFetch (GetAppList 0 3 50000)].
Proof.
  apply (getSteamApps_pagination Examples.paginated 3 None Examples.fresh
           [Examples.page [1; 2]%Z true (Some 2%Z);
            Examples.page [3]%Z true (Some 3%Z)]
           (Examples.page [4; 5]%Z false None)).
  - simpl. eexists _, _. split; [reflexivity|]. split; [reflexivity|].
    eexists _, _. split; [reflexivity|]. split; [reflexivity|].
    eexists _, _. split; [reflexivity|]. split; [reflexivity|]. exact I.
  - repeat constructor; simpl; discriminate.
  - repeat constructor.
  - reflexivity.
  - simpl. lia.
Defined.

(** C6 as stated does not hold: ending exactly at the first page whose
    more-results flag is off, with all pages' identifiers, fails on a first
    page that is empty but announces more results.  The listing ends there
    and the identifier of the second page is never fetched. *)
Lemma getSteamApps_stops_on_empty_page :
  ¬ (∀ E fuel lastTime w ps pl,
       serves E (default 0%Z lastTime) (S (tick w)) (Some 0%Z) (ps ++ [pl]) →
       Forall (λ p, have_more_results p = true) ps →
       have_more_results pl = false →
       length ps < fuel →
       ∃ al, result (steam.getSteamApps E fuel lastTime w) = Done al ∧
             al_apps al =
               steam.to_App <$> concat (page_ids <$> (ps ++ [pl]))).
Proof.
  intros claim.
  destruct (claim Examples.hiccup 5 None Examples.fresh
              [Examples.page [] true (Some 5%Z)]
              (Examples.page [7]%Z false None)) as (al & Hal & Hids).
  - simpl. eexists _, _. split; [reflexivity|]. split; [reflexivity|].
    eexists _, _. split; [reflexivity|]. split; [reflexivity|]. exact I.
  - repeat constructor.
  - reflexivity.
  - simpl. lia.
  - vm_compute in Hal. injection Hal as <-. vm_compute in Hids. discriminate.
Qed.

(** C10 (as amended). [getPlayerCount] returns 0 when the response has a
    non-success status, and when the body has a [response] object without
    [player_count]; it returns [player_count] when that is present.  It has
    no handler of its own: it throws exactly when the request is rejected,
    the body is not JSON, or the body has no [response] object. *)
Theorem getPlayerCount_outcomes E appId w :
  let answer := remote_players E (tick w) (GetNumberOfCurrentPlayers appId) in
  let r := steam.getPlayerCount E appId w in
  (∀ st body, answer = Resp false st body → result r = Done 0%Z) ∧
  (∀ st resp, answer = Resp true st (Some {| pl_response := Some resp |}) →
     result r = Done (default 0%Z (player_count resp))) ∧
  ((∃ e, result r = Thrown e) ↔
     answer = Reject ∨
     (∃ st, answer = Resp true st None) ∨
     (∃ st, answer = Resp true st (Some {| pl_response := None |}))).
Proof.
  unfold steam.getPlayerCount, bind, steam.fetch.
  destruct (remote_players E (tick w) _) as [|[] st [[[resp|]]|]]; simpl.
  all: split; [intros ?? [=]; by subst|].
  all: split; [intros ?? [=]; by subst|].
  all: split; [intros [e [=]] | intros [[=]|[[? [=]]|[? [=]]]]]; eauto.
Qed.

Lemma getPlayerCount_outcomes_witness :
  result (steam.getPlayerCount
            (Examples.players_env (Resp false "Not Found" None))
            440%Z Examples.fresh) = Done 0%Z.
Proof.
  exact (proj1 (getPlayerCount_outcomes
                  (Examples.players_env (Resp false "Not Found" None))
                  440%Z Examples.fresh) "Not Found" None eq_refl).
Defined.

(** C10 as stated does not hold: the call throws when Steam cannot be
    reached, and also when a successful response has a body without a
    [response] object (such a body lacks [player_count], yet 0 is not
    returned). *)
Lemma getPlayerCount_can_throw :
  ¬ (∀ E appId w, ∃ n, result (steam.getPlayerCount E appId w) = Done n) ∧
  result (steam.getPlayerCount
            (Examples.players_env
               (Resp true "OK" (Some {| pl_response := None |})))
            440%Z Examples.fresh) = Thrown TypeError.
Proof.
  split; [|reflexivity].
  intros claim. destruct (claim Examples.offline 440%Z Examples.fresh) as [n Hn].
  vm_compute in Hn. discriminate.
Qed.

Section Chunking.
Import steam.
Local Arguments Nat.mul : simpl never.
Local Arguments Nat.add : simpl never.
Local Arguments Nat.sub : simpl never.

(** The [k]-th chunk is the [k]-th window of 250 ids, and there are as
    many chunks as windows that start inside the list. *)
Lemma chunk_loop_lookup fuel : ∀ i (l : list Z) k,
  length l - i ≤ fuel →
  chunk_loop fuel i l !! k =
    if decide (i + 250 * k < length l)
    then Some (take 250 (drop (i + 250 * k) l)) else None.
Proof.
  induction fuel as [|fuel IH]; intros i l k Hfuel; simpl.
  - case_decide; [lia | done].
  - destruct (decide (i < length l)) as [Hi|Hi].
    + destruct k as [|k]; simpl.
      * rewrite decide_True by lia. unfold slice.
        by replace (i + 250 - i) with 250 by lia;
           replace (i + 250 * 0) with i by lia.
      * rewrite IH by lia.
        replace (i + 250 + 250 * k) with (i + 250 * S k) by lia. done.
    + rewrite decide_False by lia. done.
Qed.

Lemma chunks_lookup (l : list Z) k :
  chunks l !! k =
    if decide (250 * k < length l)
    then Some (take 250 (drop (250 * k) l)) else None.
Proof. unfold chunks. by rewrite chunk_loop_lookup by lia. Qed.

Lemma chunk_loop_concat fuel : ∀ i (l : list Z),
  length l - i ≤ fuel → concat (chunk_loop fuel i l) = drop i l.
Proof.
  induction fuel as [|fuel IH]; intros i l Hfuel; simpl.
  - by rewrite drop_ge by lia.
  - destruct (decide (i < length l)) as [Hi|Hi]; simpl.
    + rewrite IH by lia. unfold slice.
      replace (i + 250 - i) with 250 by lia.
      rewrite <- drop_drop. apply take_drop.
    + by rewrite drop_ge by lia.
Qed.

Lemma chunks_concat (l : list Z) : concat (chunks l) = l.
Proof. unfold chunks. by rewrite chunk_loop_concat by lia. Qed.

Lemma chunks_600 (l : list Z) :
  length l = 600 → length <$> chunks l = [250; 250; 100].
Proof.
  intros Hlen. apply list_eq. intros k. rewrite list_lookup_fmap.
  rewrite chunks_lookup.
  destruct k as [|[|[|k]]]; simpl;
    (case_decide; [|try lia; done]); try lia;
    simpl; f_equal; rewrite length_take, length_drop; lia.
Qed.

End Chunking.

Section Details.
Context (E : Env).
Import steam.

Lemma available_app (l1 l2 : list StoreItem) :
  available (l1 ++ l2) = available l1 ++ available l2.
Proof. unfold available. apply filter_app. Qed.

Lemma available_perm (l1 l2 : list StoreItem) :
  l1 ≡ₚ l2 → available l1 ≡ₚ available l2.
Proof. unfold available. by intros ->. Qed.

Lemma getSteamAppDetails_loop_faithful item_of cs : ∀ acc w,
  answers_chunks E item_of (tick w) cs →
  let r := getSteamAppDetails_loop E cs acc w in
  events r = (λ c, EFetch (GetItems c)) <$> cs ∧
  ∃ got, result r = Done (acc ++ got) ∧
         got ≡ₚ available (item_of <$> concat cs).
Proof.
  induction cs as [|c cs IH]; intros acc w Hcs.
  - split; [done|]. exists []. by rewrite app_nil_r.
  - destruct (Hcs 0 c eq_refl) as (st & items & Hanswer & Hperm).
    rewrite Nat.add_0_r in Hanswer.
    assert (answers_chunks E item_of (tick (step w)) cs) as Hrest.
    { intros k c' Hk. simpl.
      replace (S (tick w + k)) with (tick w + S k) by lia.
      by apply Hcs. }
    specialize (IH (acc ++ available items) (step w) Hrest).
    cbn [getSteamAppDetails_loop]. unfold bind, fetch.
    rewrite Hanswer. cbn [it_response store_items].
    destruct (getSteamAppDetails_loop E cs _ _) as [res aft evs].
    destruct IH as (He & got & Hr & Hgot). simpl in *. subst.
    split; [done|].
    exists (available items ++ got). split; [by rewrite app_assoc|].
    rewrite fmap_app, available_app.
    by rewrite (available_perm _ _ Hperm), Hgot.
Qed.

Lemma available_ids item_of (l : list Z) :
  (∀ i, si_appid (item_of i) = i) →
  si_appid <$> available (item_of <$> l) =
    filter (λ i, unvailable_for_country_restriction (item_of i) = false) l.
Proof.
  intros Hid. unfold available.
  induction l as [|i l IH]; [done|].
  rewrite fmap_cons, !filter_cons.
  destruct (decide (unvailable_for_country_restriction (item_of i) = false));
    [rewrite fmap_cons, Hid|]; by rewrite IH.
Qed.

End Details.

(** C7. [getSteamAppDetails] cuts the requested ids into consecutive chunks
    of 250 (600 ids give chunks of 250, 250 and 100) and sends one request
    per chunk, in order.  When the remote answers every chunk with the items
    of exactly the ids asked for, the call sends exactly these requests, one
    after the other, and the result holds the requested ids that the
    remote did not flag as unavailable for the region, each as often as it
    was requested: nothing is added, nothing is lost, distinct ids stay
    distinct, and a flagged item is left out without any error. *)
Theorem getSteamAppDetails_chunking E appIds w item_of :
  (∀ i, si_appid (item_of i) = i) →
  answers_chunks E item_of (tick w) (steam.chunks appIds) →
  let r := steam.getSteamAppDetails E appIds w in
  let kept :=
    filter (λ i, unvailable_for_country_restriction (item_of i) = false)
      appIds in
  (∀ k, steam.chunks appIds !! k =
          if decide (250 * k < length appIds)
          then Some (take 250 (drop (250 * k) appIds)) else None) ∧
  concat (steam.chunks appIds) = appIds ∧
  (length appIds = 600 → length <$> steam.chunks appIds = [250; 250; 100]) ∧
  events r = (λ c, EFetch (GetItems c)) <$> steam.chunks appIds ∧
  ∃ res,
    result r = Done res ∧
    ad_appId <$> res ≡ₚ kept ∧
    (NoDup appIds → NoDup (ad_appId <$> res)) ∧
    (∀ i, i ∈ ad_appId <$> res ↔
          i ∈ appIds ∧ unvailable_for_country_restriction (item_of i) = false).
Proof.
  intros Hid Hremote r kept.
  split; [apply chunks_lookup|].
  split; [apply chunks_concat|].
  split; [apply chunks_600|].
  pose proof (getSteamAppDetails_loop_faithful E item_of
                (steam.chunks appIds) [] w Hremote) as H.
  subst r. unfold steam.getSteamAppDetails, bind.
  destruct (steam.getSteamAppDetails_loop E _ _ _) as [res aft evs].
  destruct H as (He & got & Hr & Hgot).
  rewrite chunks_concat in Hgot. simpl in *. subst.
  rewrite app_nil_r. split; [done|].
  exists (steam.to_AppDetails <$> got). split; [done|].
  assert (ad_appId <$> (steam.to_AppDetails <$> got) ≡ₚ kept) as Hkept.
  { rewrite <- list_fmap_compose.
    change (ad_appId ∘ steam.to_AppDetails) with si_appid.
    rewrite Hgot. by rewrite available_ids. }
  split; [exact Hkept|]. split.
  - intros Hnd. rewrite Hkept. by apply NoDup_filter.
  - intros i. rewrite Hkept. subst kept. by rewrite list_elem_of_filter, (comm and).
Qed.

Lemma catalog_answers_chunks t cs :
  answers_chunks Examples.healthy Examples.item t cs.
Proof. intros k c _. eexists _, _. split; reflexivity. Qed.

Lemma getSteamAppDetails_chunking_witness :
  let r := steam.getSteamAppDetails Examples.healthy Examples.six_hundred
             Examples.fresh in
  length <$> steam.chunks Examples.six_hundred = [250; 250; 100] ∧
  events r =
    (λ c, EFetch (GetItems c)) <$> steam.chunks Examples.six_hundred ∧
  ∃ res, result r = Done res ∧
         (NoDup Examples.six_hundred → NoDup (ad_appId <$> res)).
Proof.
  destruct (getSteamAppDetails_chunking Examples.healthy
              Examples.six_hundred Examples.fresh Examples.item
              (λ i, eq_refl)
              (catalog_answers_chunks _ _))
    as (_ & _ & H600 & He & res & Hr & _ & Hnd & _).
  split; [exact (H600 eq_refl)|]. split; [exact He|].
  exists res. by split.
Defined.

(** ** The store writer (database.ts) *)

(** Case analysis on the oracle answers met along a run. *)
Ltac oracle :=
  repeat match goal with
    | |- context [pg_query_ok ?E ?t] =>
        destruct (pg_query_ok E t) eqn:?; cbn -[database.exec]
    | |- context [pg_connect_ok ?E ?t] =>
        destruct (pg_connect_ok E t) eqn:?; cbn -[database.exec]
    | |- context [fs_write_ok ?E ?t] =>
        destruct (fs_write_ok E t) eqn:?; cbn -[database.exec]
    | |- context [database.exec ?q ?s] =>
        destruct (database.exec q s) eqn:?; cbn -[database.exec]
    end.

Ltac run_apps :=
  unfold database.insertOrUpdateApps, database.insertOrUpdateApps_try,
    database.insertOrUpdateApps_catch, finally, try_catch, bind,
    database.pool_connect, database.client_query, log_error, ret;
  cbn -[database.exec]; oracle.

(** An event is in a trace that is written out. *)
Ltac present :=
  repeat first [apply list_elem_of_here | apply list_elem_of_further].

(** A hypothesis placing an event in a trace that does not hold it. *)
Ltac absent H :=
  repeat (apply elem_of_cons in H as [H|H]; [discriminate H|]);
  by apply elem_of_nil in H.

Section StoreWriter.
Context (E : Env).
Import database.

Lemma insertOrUpdateTags_frame tags w :
  let r := insertOrUpdateTags E tags w in
  file (after r) = file w ∧
  (result r = Done true ∧
     events r = [EQuery (TagsUpsert (tag_row <$> tags)) true] ∨
   result r = Done false ∧ db (after r) = db w ∧
     events r = [EQuery (TagsUpsert (tag_row <$> tags)) false;
                 LogError "Error inserting or updating tags:"]).
Proof.
  unfold insertOrUpdateTags, pool_query, try_catch, bind, client_query,
    log_error, ret.
  cbn -[exec]. oracle; auto.
Qed.

(** Success means that the four statements went through and that the rows
    of the transaction were committed. *)
Lemma insertOrUpdateApps_success apps w :
  let r := insertOrUpdateApps E apps w in
  result r = Done true →
  ∃ s1 s2,
    exec (AppQuery (app_row <$> apps)) (db w) = Some s1 ∧
    exec (TagsQuery (apps ≫= app_tag_rows)) s1 = Some s2 ∧
    db (after r) = s2 ∧
    events r = [EConnect; EQuery BEGIN true;
                EQuery (AppQuery (app_row <$> apps)) true;
                EQuery (TagsQuery (apps ≫= app_tag_rows)) true;
                EQuery COMMIT true; ERelease].
Proof.
  run_apps; intros [=]. eauto 10.
Qed.

(** Anything else leaves the committed rows as they were, and no COMMIT
    got through. *)
Lemma insertOrUpdateApps_failure apps w :
  let r := insertOrUpdateApps E apps w in
  result r ≠ Done true →
  db (after r) = db w ∧ EQuery COMMIT true ∉ events r.
Proof.
  run_apps; intros Hr; try done; (split; [done|]); intros H; absent H.
Qed.

Lemma insertOrUpdateApps_frame apps w :
  let r := insertOrUpdateApps E apps w in
  file (after r) = file w ∧ Forall (λ e, ¬ is_write e) (events r).
Proof.
  run_apps; (split; [done|]); repeat constructor; by intros [].
Qed.

(** A client is released with its transaction still open only when its
    ROLLBACK was lost. *)
Lemma insertOrUpdateApps_session apps w :
  let r := insertOrUpdateApps E apps w in
  EConnect ∈ events r →
  session (after r) = Idle ∨ EQuery ROLLBACK false ∈ events r.
Proof.
  run_apps; intros Hin; try absent Hin; first [by left | right; present].
Qed.

(** A proposed row is found under its key after the statement. *)
Lemma upsert_lookup `{Countable K} {V} (rows : list (K * V))
    (table : gmap K V) k v :
  NoDup rows.*1 → (k, v) ∈ rows → upsert rows table !! k = Some v.
Proof.
  intros Hnd Hin. unfold upsert.
  apply lookup_union_Some_l. by apply elem_of_list_to_map_1.
Qed.

(** What a successful call stores for an app is exactly what the call
    sent, an absent colour or player count included. *)
Lemma insertOrUpdateApps_stores apps w a :
  let r := insertOrUpdateApps E apps w in
  result r = Done true → a ∈ apps →
  t_app (db (after r)) !! ad_appId a = Some (app_row a).2.
Proof.
  intros r Hr Ha.
  destruct (insertOrUpdateApps_success apps w Hr)
    as (s1 & s2 & H1 & H2 & Hdb & _).
  fold r in Hdb. rewrite Hdb. simpl in H1, H2.
  destruct (keys_distinct (app_row <$> apps)) eqn:Hk; [|done].
  injection H1 as <-.
  destruct (_ && _) in H2; [|done]. injection H2 as <-. simpl.
  apply upsert_lookup.
  - by apply bool_decide_eq_true in Hk.
  - apply list_elem_of_fmap. by exists a.
Qed.

End StoreWriter.


(** C2 does not hold on the code in one respect.  Whatever the batch, when
    the weight-association statement of [insertOrUpdateApps] fails (rejected
    by the server or lost on the way), BEGIN and the statement of the apps
    had gone through, ROLLBACK is issued and no COMMIT is sent: the
    committed rows afterwards are exactly the rows before the call, so that
    no core-field change of the call is visible.  The call returns [false]
    when the ROLLBACK went through.  When the ROLLBACK fails as well, its
    error leaves the [catch] block uncaught: the call throws instead of
    reporting [false]. *)
Theorem insertOrUpdateApps_rolls_back E apps w :
  let r := database.insertOrUpdateApps E apps w in
  EQuery (TagsQuery (apps ≫= database.app_tag_rows)) false ∈ events r →
  EQuery BEGIN true ∈ events r ∧
  EQuery (AppQuery (database.app_row <$> apps)) true ∈ events r ∧
  db (after r) = db w ∧
  (∃ ok, EQuery ROLLBACK ok ∈ events r) ∧
  (∀ ok, EQuery COMMIT ok ∉ events r) ∧
  (EQuery ROLLBACK true ∈ events r → result r = Done false) ∧
  (EQuery ROLLBACK false ∈ events r → result r = Thrown DbError).
Proof.
  run_apps; intros Hfail; try absent Hfail.
  all: split; [present|].
  all: split; [present|].
  all: split; [done|].
  all: split; [eexists; present|].
  all: split; [intros ok H; absent H|].
  all: split; intros H; try done; absent H.
Qed.

Lemma insertOrUpdateApps_rolls_back_witness :
  let batch := [steam.to_AppDetails (Examples.item 10)] in
  let r := database.insertOrUpdateApps Examples.cut_off batch
             Examples.populated in
  db (after r) = db Examples.populated ∧ result r = Thrown DbError.
Proof.
  destruct (insertOrUpdateApps_rolls_back Examples.cut_off
              [steam.to_AppDetails (Examples.item 10)] Examples.populated)
    as (_ & _ & Hdb & _ & _ & _ & Hr).
  - vm_compute. present.
  - split; [exact Hdb|]. apply Hr. vm_compute. present.
Defined.

(** C8 does not hold on the code.  The apps that [getSteamAppDetails]
    produces carry neither a colour nor a player count, and
    [insertOrUpdateApps] sends both columns explicitly: what is stored is
    NULL, not the column defaults ['#000000'] and [0], both for a row
    inserted for the first time (app 10 into empty tables) and for a row
    updated on conflict (app 10 over a row that had a colour and a count). *)
Theorem absent_color_is_stored_as_null :
  let inserted := jobs.syncWithSteam Examples.healthy 5 Examples.fresh in
  let updated := jobs.syncWithSteam Examples.healthy 5 Examples.populated in
  let stored :=
    {| r_name := "Game"; r_description := "About the game";
       r_color := None; r_player_count := None |} in
  result inserted = Done tt ∧
  t_app (db Examples.fresh) !! 10%Z = None ∧
  t_app (db (after inserted)) !! 10%Z = Some stored ∧
  result updated = Done tt ∧
  r_color <$> t_app (db Examples.populated) !! 10%Z = Some (Some "#ff0000") ∧
  t_app (db (after updated)) !! 10%Z = Some stored ∧
  r_color stored ≠ Some DEFAULT_color ∧
  r_player_count stored ≠ Some DEFAULT_player_count.
Proof. vm_compute. repeat split; discriminate. Qed.

(** ** The reconciler (jobs.ts) *)

Section Traces.
Context (confirmed : Event → Prop).

(** A write that follows a stretch without writes follows all of it. *)
Lemma write_after_stretch (l1 l2 pre post : list Event) d ok :
  Forall (λ e, ¬ is_write e) l1 →
  l1 ++ l2 = pre ++ EWriteFile d ok :: post →
  ∃ pre', pre = l1 ++ pre' ∧ l2 = pre' ++ EWriteFile d ok :: post.
Proof.
  revert pre. induction l1 as [|a l1 IH]; intros pre Hq Heq.
  - by exists pre.
  - rewrite Forall_cons in Hq. destruct Hq as [Ha Hq].
    destruct pre as [|b pre]; simpl in Heq.
    + injection Heq as -> _. by destruct Ha.
    + injection Heq as -> Heq.
      destruct (IH pre Hq Heq) as (pre' & -> & ->). by exists pre'.
Qed.

Lemma guarded_no_write evs :
  Forall (λ e, ¬ is_write e) evs → guarded_by confirmed evs.
Proof.
  intros Hq pre d ok post ->.
  rewrite Forall_app, Forall_cons in Hq. by destruct Hq as (_ & [] & _).
Qed.

Lemma guarded_app l1 l2 :
  Forall (λ e, ¬ is_write e) l1 →
  guarded_by confirmed l2 → guarded_by confirmed (l1 ++ l2).
Proof.
  intros Hq Hg pre d ok post Heq.
  destruct (write_after_stretch _ _ _ _ _ _ Hq Heq) as (pre' & -> & Hl2).
  destruct (Hg _ _ _ _ Hl2) as (e & He & Hc).
  exists e. split; [set_solver | done].
Qed.

Lemma guarded_once_confirmed l1 l2 e :
  Forall (λ e, ¬ is_write e) l1 → e ∈ l1 → confirmed e →
  guarded_by confirmed (l1 ++ l2).
Proof.
  intros Hq He Hc pre d ok post Heq.
  destruct (write_after_stretch _ _ _ _ _ _ Hq Heq) as (pre' & -> & _).
  exists e. split; [set_solver | done].
Qed.

Lemma quiet_not_write evs :
  Forall quiet evs → Forall (λ e, ¬ is_write e) evs.
Proof.
  intros H. eapply Forall_impl; [exact H|]. intros []; simpl; tauto.
Qed.

Lemma fetch_quiet evs : Forall is_fetch evs → Forall quiet evs.
Proof.
  intros H. eapply Forall_impl; [exact H|]. intros []; simpl; tauto.
Qed.

(** A feed that attempted no write and left the file alone obeys the
    discipline, provided it rethrows what its fetch threw. *)
Lemma discipline_idle {A} failure (advance : A → DataJson)
    (fetch : Run A) (feed : Run unit) w :
  Forall (λ e, ¬ is_write e) (events feed) →
  untouched feed w →
  (∀ e, result fetch = Thrown e → result feed = Thrown e) →
  watermark_discipline confirmed failure advance fetch feed w.
Proof.
  intros Hnw Hsame Hthrow.
  split; [by apply guarded_no_write|].
  split; [done|]. split; [done|]. split; [done|].
  split; [by destruct Hsame|].
  intros d Hin. apply (proj1 (Forall_forall _ _) Hnw) in Hin. by destruct Hin.
Qed.

(** A feed that attempted exactly one write, after a confirmation, of the
    record built from what its fetch returned, obeys the discipline. *)
Lemma discipline_saved {A} failure (advance : A → DataJson)
    (fetch : Run A) (feed : Run unit) w pre post a ok e :
  events feed = pre ++ EWriteFile (advance a) ok :: post →
  Forall (λ e, ¬ is_write e) pre → Forall (λ e, ¬ is_write e) post →
  e ∈ pre → confirmed e →
  LogError failure ∉ pre ++ post →
  result fetch = Done a →
  result feed = Done tt →
  (if ok then file (after feed) = Some (advance a)
   else file (after feed) = file w ∨ file (after feed) = None) →
  watermark_discipline confirmed failure advance fetch feed w.
Proof.
  intros Hev Hpre Hpost He Hc Hlog Hfetch Hfeed Hfile.
  unfold watermark_discipline. rewrite Hev.
  split; [by apply (guarded_once_confirmed pre _ e)|].
  split; [intros e' He'; congruence|].
  split; [intros e' He'; congruence|].
  split.
  { intros Hin. exfalso. apply Hlog.
    apply elem_of_app in Hin as [Hin|Hin]; [set_solver|].
    apply elem_of_cons in Hin as [[=]|Hin]. set_solver. }
  split.
  { intros Hno. exfalso. apply (Hno (advance a) ok).
    apply elem_of_app. right. apply list_elem_of_here. }
  intros d Hin.
  apply elem_of_app in Hin as [Hin|Hin].
  { apply (proj1 (Forall_forall _ _) Hpre) in Hin. by destruct Hin. }
  apply elem_of_cons in Hin as [[= -> <-]|Hin].
  - split; [done|]. by exists a.
  - apply (proj1 (Forall_forall _ _) Hpost) in Hin. by destruct Hin.
Qed.

Lemma shape_discipline {A} failure (advance : A → DataJson) done_msg
    (fetch : Run A) (feed : Run unit) w :
  failure ≠ "Failed to write data.json:" →
  idle fetch feed w ∨
    saved confirmed failure advance done_msg fetch feed w →
  watermark_discipline confirmed failure advance fetch feed w.
Proof.
  intros Hmsg [(Hnw & Hsame & Hthrow)|
               (pre & a & ok & e & Hev & Hpre & He & Hc & Hlog & Hf & Hr & Hfile)].
  - by apply discipline_idle.
  - eapply (discipline_saved failure advance fetch feed w pre _ a ok e);
      try done.
    + destruct ok; repeat constructor; by intros [].
    + intros Hin. apply elem_of_app in Hin as [Hin|Hin]; [done|].
      destruct ok; simpl in Hin.
      * absent Hin.
      * apply elem_of_cons in Hin as [[=]|Hin]; [done | absent Hin].
Qed.

End Traces.

Section Feeds.
Context (E : Env).
Import jobs.

Lemma getDataJson_run w :
  getDataJson E w =
    {| result := Done (stored E w); after := step w; events := [] |}.
Proof. reflexivity. Qed.

Lemma setDataJson_run d w :
  setDataJson E d w =
    if fs_write_ok E (tick w)
    then {| result := Done tt;
            after := step (with_file (Some d) w);
            events := [EWriteFile d true] |}
    else {| result := Done tt;
            after := step (if fs_write_torn E (tick w)
                           then with_file None w else w);
            events := [EWriteFile d false;
                       LogError "Failed to write data.json:"] |}.
Proof.
  unfold setDataJson, try_catch, writeFile, log_error.
  by destruct (fs_write_ok E (tick w)).
Qed.

Lemma setDataJson_done d w : result (setDataJson E d w) = Done tt.
Proof. rewrite setDataJson_run. by destruct (fs_write_ok E (tick w)). Qed.

Lemma fetchTags_frame data w :
  let r := fetchTags E data w in
  untouched r w ∧ Forall is_fetch (events r).
Proof.
  unfold fetchTags. destruct (truthy _); apply getTagList_frame.
Qed.

Lemma fetchApps_frame fuel data w :
  let r := fetchApps E fuel data w in
  untouched r w ∧ Forall quiet (events r).
Proof.
  unfold fetchApps. destruct (truthy _).
  - destruct (getSteamApps_frame E fuel (lastAppTime data) w) as [H1 H2].
    split; [done | by apply fetch_quiet].
  - pose proof (getSteamApps_frame E fuel None w) as H.
    unfold bind, log, ret.
    destruct (steam.getSteamApps E fuel None w) as [[al| |] aft evs];
      destruct H as [[Hf Hd] Hq]; apply fetch_quiet in Hq; simpl in *;
      (split; [done|]); constructor; try done.
    apply Forall_app. split; [done|]. by repeat constructor.
Qed.

(** The taxonomy feed, split along its fetch, its store write and its
    save. *)
Lemma syncSteamTags_run w :
  let data := stored E w in
  let rf := fetchTags E data (step w) in
  syncSteamTags E w =
    match result rf with
    | Done tl =>
        if decide (length (tags tl) = 0) then
          {| result := Done tt; after := after rf;
             events := events rf ++ [Log "No new Steam tags found"] |}
        else
          let rw := database.insertOrUpdateTags E (tags tl) (after rf) in
          match result rw with
          | Done true =>
              let rs := setDataJson E {| lastTagHash := tagHash tl;
                                         lastAppTime := lastAppTime data |}
                          (after rw) in
              {| result := Done tt; after := after rs;
                 events := events rf ++ events rw ++ events rs
                             ++ [Log "Steam tags synced"] |}
          | Done false =>
              {| result := Done tt; after := after rw;
                 events := events rf ++ events rw |}
          | Thrown e =>
              {| result := Thrown e; after := after rw;
                 events := events rf ++ events rw |}
          | OutOfFuel =>
              {| result := OutOfFuel; after := after rw;
                 events := events rf ++ events rw |}
          end
    | Thrown e =>
        {| result := Thrown e; after := after rf; events := events rf |}
    | OutOfFuel =>
        {| result := OutOfFuel; after := after rf; events := events rf |}
    end.
Proof.
  intros data rf. subst data rf. unfold syncSteamTags. unfold bind at 1.
  rewrite getDataJson_run. unfold bind at 1.
  destruct (fetchTags E (stored E w) (step w)) as [[tl| |] aft evs];
    cbn [result after events]; [|done..].
  destruct (decide (length (tags tl) = 0)); [done|].
  unfold bind at 1.
  destruct (database.insertOrUpdateTags E (tags tl) aft)
    as [[[|]| |] aft2 evs2]; unfold ret; cbn [result after events negb app];
    rewrite ?app_nil_r; try done.
  unfold bind, log.
  pose proof (setDataJson_done {| lastTagHash := tagHash tl;
                                  lastAppTime := lastAppTime (stored E w) |}
                aft2) as Hs.
  destruct (setDataJson E _ aft2) as [r3 aft3 evs3]. simpl in Hs. by subst.
Qed.

(** The catalog feed, split along its fetch, its detail expansion, its
    store write and its save. *)
Lemma syncSteamApps_run fuel w :
  let data := stored E w in
  let rf := fetchApps E fuel data (step w) in
  syncSteamApps E fuel w =
    match result rf with
    | Done al =>
        if decide (length (al_apps al) = 0) then
          {| result := Done tt; after := after rf;
             events := events rf
                         ++ [Log "No new or updated Steam apps found"] |}
        else
          let rd := steam.getSteamAppDetails E (appId <$> al_apps al)
                      (after rf) in
          match result rd with
          | Done details =>
              let rw := database.insertOrUpdateApps E details (after rd) in
              match result rw with
              | Done true =>
                  let rs := setDataJson E
                              {| lastTagHash := lastTagHash data;
                                 lastAppTime := Some (time al) |}
                              (after rw) in
                  {| result := Done tt; after := after rs;
                     events := events rf ++ events rd ++ events rw
                                 ++ events rs ++ [Log "Steam apps synced"] |}
              | Done false =>
                  {| result := Done tt; after := after rw;
                     events := events rf ++ events rd ++ events rw |}
              | Thrown e =>
                  {| result := Thrown e; after := after rw;
                     events := events rf ++ events rd ++ events rw |}
              | OutOfFuel =>
                  {| result := OutOfFuel; after := after rw;
                     events := events rf ++ events rd ++ events rw |}
              end
          | Thrown e =>
              {| result := Thrown e; after := after rd;
                 events := events rf ++ events rd |}
          | OutOfFuel =>
              {| result := OutOfFuel; after := after rd;
                 events := events rf ++ events rd |}
          end
    | Thrown e =>
        {| result := Thrown e; after := after rf; events := events rf |}
    | OutOfFuel =>
        {| result := OutOfFuel; after := after rf; events := events rf |}
    end.
Proof.
  intros data rf. subst data rf. unfold syncSteamApps. unfold bind at 1.
  rewrite getDataJson_run. unfold bind at 1.
  destruct (fetchApps E fuel (stored E w) (step w)) as [[al| |] aft evs];
    cbn [result after events]; [|done..].
  destruct (decide (length (al_apps al) = 0)); [done|].
  unfold bind at 1.
  destruct (steam.getSteamAppDetails E (appId <$> al_apps al) aft)
    as [[details| |] aft1 evs1]; cbn [result after events app]; [|done..].
  unfold bind at 1.
  destruct (database.insertOrUpdateApps E details aft1)
    as [[[|]| |] aft2 evs2]; unfold ret; cbn [result after events negb app];
    rewrite ?app_nil_r; try done.
  unfold bind, log.
  pose proof (setDataJson_done {| lastTagHash := lastTagHash (stored E w);
                                  lastAppTime := Some (time al) |}
                aft2) as Hs.
  destruct (setDataJson E _ aft2) as [r3 aft3 evs3]. simpl in Hs. by subst.
Qed.

Lemma not_in_quiet (evs : list Event) e :
  Forall quiet evs → ¬ quiet e → e ∉ evs.
Proof. intros Hq Hn He. by apply Hn, (proj1 (Forall_forall _ _) Hq). Qed.

(** The file and the tables are still those of the starting world. *)
Ltac same_world := split; simpl in *; congruence.

(** No event of a quiet stretch is a write. *)
Ltac no_writes :=
  rewrite ?Forall_app; repeat split;
  try (by apply quiet_not_write); try (by apply quiet_not_write, fetch_quiet);
  try done;
  repeat (apply Forall_cons; split; [by intros []|]); by apply Forall_nil.

Lemma syncSteamTags_shape w :
  let fetch := fetchTags E (stored E w) (step w) in
  let advance tl := {| lastTagHash := tagHash tl;
                       lastAppTime := lastAppTime (stored E w) |} in
  idle fetch (syncSteamTags E w) w ∨
  saved tags_written "Error inserting or updating tags:" advance
    "Steam tags synced" fetch (syncSteamTags E w) w.
Proof.
  intros fetch advance. subst fetch.
  rewrite syncSteamTags_run. cbv zeta.
  pose proof (fetchTags_frame (stored E w) (step w)) as Hframe.
  destruct (fetchTags E (stored E w) (step w)) as [[tl| |] aft evs];
    destruct Hframe as [[Hf Hd] Hq]; simpl in Hf, Hd, Hq;
    cbn [result after events].
  2,3: left; split; [no_writes | split; [same_world | by intros ? [= ->]]].
  destruct (decide (length (tags tl) = 0)) as [Hnil|Hnil].
  { left; split; [simpl; no_writes | split; [same_world | done]]. }
  pose proof (insertOrUpdateTags_frame E (tags tl) aft) as Hw.
  destruct (database.insertOrUpdateTags E (tags tl) aft) as [rw aftw evsw].
  destruct Hw as [Hwf [(-> & ->)|(-> & Hwd & ->)]]; simpl in Hwf;
    cbn [result after events].
  2: { left; split; [simpl; no_writes | split; [same_world | done]]. }
  right. rewrite setDataJson_run.
  exists (evs ++ [EQuery (TagsUpsert (database.tag_row <$> tags tl)) true]),
    tl, (fs_write_ok E (tick aftw)),
    (EQuery (TagsUpsert (database.tag_row <$> tags tl)) true).
  split; [destruct (fs_write_ok E _); simpl; by rewrite <- app_assoc|].
  split; [no_writes|].
  split; [apply elem_of_app; right; present|].
  split; [by eexists|].
  split.
  { intros Hin. apply elem_of_app in Hin as [Hin|Hin]; [|absent Hin].
    apply (proj1 (Forall_forall _ _) Hq) in Hin. by destruct Hin. }
  split; [done|].
  split; [by destruct (fs_write_ok E _)|].
  destruct (fs_write_ok E _); [done|].
  destruct (fs_write_torn E _); simpl; [by right | left; congruence].
Qed.

Lemma syncSteamApps_shape fuel w :
  let fetch := fetchApps E fuel (stored E w) (step w) in
  let advance al := {| lastTagHash := lastTagHash (stored E w);
                       lastAppTime := Some (time al) |} in
  idle fetch (syncSteamApps E fuel w) w ∨
  saved apps_written "Error inserting or updating apps:" advance
    "Steam apps synced" fetch (syncSteamApps E fuel w) w.
Proof.
  intros fetch advance. subst fetch.
  rewrite syncSteamApps_run. cbv zeta.
  pose proof (fetchApps_frame fuel (stored E w) (step w)) as Hframe.
  destruct (fetchApps E fuel (stored E w) (step w)) as [[al| |] aft evs];
    destruct Hframe as [[Hf Hd] Hq]; simpl in Hf, Hd, Hq;
    cbn [result after events].
  2,3: left; split; [no_writes | split; [same_world | by intros ? [= ->]]].
  destruct (decide (length (al_apps al) = 0)) as [Hnil|Hnil].
  { left; split; [simpl; no_writes | split; [same_world | done]]. }
  pose proof (getSteamAppDetails_frame E (appId <$> al_apps al) aft)
    as Hdframe.
  destruct (steam.getSteamAppDetails E (appId <$> al_apps al) aft)
    as [[details| |] aft1 evs1];
    destruct Hdframe as [[Hdf Hdd] Hdq]; simpl in Hdf, Hdd, Hdq;
    cbn [result after events].
  2,3: left; split; [simpl; no_writes | split; [same_world | done]].
  pose proof (insertOrUpdateApps_frame E details aft1) as Hw.
  pose proof (insertOrUpdateApps_success E details aft1) as Hok.
  pose proof (insertOrUpdateApps_failure E details aft1) as Hfail.
  destruct (database.insertOrUpdateApps E details aft1)
    as [[[|]| |] aftw evsw];
    destruct Hw as [Hwf Hwq]; simpl in Hwf, Hwq, Hok, Hfail;
    cbn [result after events].
  2,3,4: destruct (Hfail ltac:(done)) as [Hwd _];
    left; split; [simpl; no_writes | split; [same_world | done]].
  destruct (Hok eq_refl) as (s1 & s2 & _ & _ & _ & ->).
  right. rewrite setDataJson_run.
  set (commit := [EConnect; EQuery BEGIN true;
                  EQuery (AppQuery (database.app_row <$> details)) true;
                  EQuery (TagsQuery (details ≫= database.app_tag_rows)) true;
                  EQuery COMMIT true; ERelease]).
  exists (evs ++ evs1 ++ commit), al, (fs_write_ok E (tick aftw)),
    (EQuery COMMIT true).
  split; [destruct (fs_write_ok E _); simpl; by rewrite <- !app_assoc|].
  split; [no_writes|].
  split; [apply elem_of_app; right; apply elem_of_app; right; present|].
  split; [done|].
  split.
  { intros Hin. apply elem_of_app in Hin as [Hin|Hin].
    { apply (proj1 (Forall_forall _ _) Hq) in Hin. by destruct Hin. }
    apply elem_of_app in Hin as [Hin|Hin]; [|absent Hin].
    apply (proj1 (Forall_forall _ _) Hdq) in Hin. by destruct Hin. }
  split; [done|].
  split; [by destruct (fs_write_ok E _)|].
  destruct (fs_write_ok E _); [done|].
  destruct (fs_write_torn E _); simpl; [by right | left; congruence].
Qed.

End Feeds.

Section Pass.
Context (E : Env).
Import jobs.

(** A successful store write followed by a successful save advances the
    hash to the one the fetch returned. *)
Lemma syncSteamTags_advances w tl :
  let ft := fetchTags E (stored E w) (step w) in
  let rw := database.insertOrUpdateTags E (tags tl) (after ft) in
  result ft = Done tl → tags tl ≠ [] →
  result rw = Done true → fs_write_ok E (tick (after rw)) = true →
  let r := syncSteamTags E w in
  result r = Done tt ∧
  file (after r) = Some {| lastTagHash := tagHash tl;
                           lastAppTime := lastAppTime (stored E w) |}.
Proof.
  intros ft rw Hft Hne Hrw Hfs. rewrite syncSteamTags_run. cbv zeta.
  fold ft. rewrite Hft.
  destruct (decide (length (tags tl) = 0)) as [Hz|_];
    [by apply nil_length_inv in Hz|].
  fold rw. rewrite Hrw. cbn [result after].
  by rewrite setDataJson_run, Hfs.
Qed.

Lemma syncSteamApps_advances fuel w al details :
  let fa := fetchApps E fuel (stored E w) (step w) in
  let rd := steam.getSteamAppDetails E (appId <$> al_apps al) (after fa) in
  let rw := database.insertOrUpdateApps E details (after rd) in
  result fa = Done al → al_apps al ≠ [] → result rd = Done details →
  result rw = Done true → fs_write_ok E (tick (after rw)) = true →
  let r := syncSteamApps E fuel w in
  result r = Done tt ∧
  file (after r) = Some {| lastTagHash := lastTagHash (stored E w);
                           lastAppTime := Some (time al) |}.
Proof.
  intros fa rd rw Hfa Hne Hrd Hrw Hfs. rewrite syncSteamApps_run. cbv zeta.
  fold fa. rewrite Hfa.
  destruct (decide (length (al_apps al) = 0)) as [Hz|_];
    [by apply nil_length_inv in Hz|].
  fold rd. rewrite Hrd. fold rw. rewrite Hrw. cbn [result after].
  by rewrite setDataJson_run, Hfs.
Qed.

(** A fetch that returns nothing ends the feed at once. *)
Lemma syncSteamTags_nothing_new w tl :
  result (fetchTags E (stored E w) (step w)) = Done tl → tags tl = [] →
  let r := syncSteamTags E w in
  result r = Done tt ∧ untouched r w ∧ Forall quiet (events r).
Proof.
  intros Hft Hnil. rewrite syncSteamTags_run. cbv zeta.
  pose proof (fetchTags_frame E (stored E w) (step w)) as Hframe.
  destruct (fetchTags E (stored E w) (step w)) as [rf aft evs].
  destruct Hframe as [[Hf Hd] Hq]. simpl in *. subst rf.
  rewrite Hnil. simpl. split; [done|]. split; [done|].
  apply Forall_app. split; [by apply fetch_quiet | by repeat constructor].
Qed.

Lemma syncSteamApps_nothing_new fuel w al :
  result (fetchApps E fuel (stored E w) (step w)) = Done al →
  al_apps al = [] →
  let r := syncSteamApps E fuel w in
  result r = Done tt ∧ untouched r w ∧ Forall quiet (events r).
Proof.
  intros Hfa Hnil. rewrite syncSteamApps_run. cbv zeta.
  pose proof (fetchApps_frame E fuel (stored E w) (step w)) as Hframe.
  destruct (fetchApps E fuel (stored E w) (step w)) as [rf aft evs].
  destruct Hframe as [[Hf Hd] Hq]. simpl in *. subst rf.
  rewrite Hnil. simpl. split; [done|]. split; [done|].
  apply Forall_app. split; [done | by repeat constructor].
Qed.

(** The pass: the catalog feed starts where the taxonomy feed returned, and
    does not start when the taxonomy feed threw. *)
Lemma syncWithSteam_run fuel w :
  let rt := syncSteamTags E w in
  let ra := syncSteamApps E fuel (after rt) in
  syncWithSteam E fuel w =
    match result rt with
    | Done _ =>
        {| result := result ra; after := after ra;
           events := Log "Syncing with Steam..." :: events rt ++ events ra
                       ++ match result ra with
                          | Done _ => [Log "Syncing with Steam done"]
                          | _ => []
                          end |}
    | Thrown e =>
        {| result := Thrown e; after := after rt;
           events := Log "Syncing with Steam..." :: events rt |}
    | OutOfFuel =>
        {| result := OutOfFuel; after := after rt;
           events := Log "Syncing with Steam..." :: events rt |}
    end.
Proof.
  intros rt ra. subst rt ra. unfold syncWithSteam, bind, log.
  destruct (syncSteamTags E w) as [[[]| |] aft evs];
    cbn [result after events app]; try done.
  destruct (syncSteamApps E fuel aft) as [[[]| |] aft1 evs1];
    cbn [result after events app]; by rewrite ?app_nil_r.
Qed.

(** Whoever asks, a save that fails is logged and swallowed. *)
Lemma setDataJson_failure d w :
  fs_write_ok E (tick w) = false →
  let r := setDataJson E d w in
  result r = Done tt ∧
  events r = [EWriteFile d false; LogError "Failed to write data.json:"] ∧
  db (after r) = db w ∧
  file (after r) = if fs_write_torn E (tick w) then None else file w.
Proof.
  intros Hfs. rewrite setDataJson_run, Hfs.
  by destruct (fs_write_torn E (tick w)).
Qed.

(** A feed in which a save failed has the second shape, with the failure
    logged, success announced all the same, and the file as it was or
    without contents. *)
Lemma failed_save_in_feed {A} confirmed failure (advance : A → DataJson)
    done_msg (fetch : Run A) (feed : Run unit) w d :
  idle fetch feed w ∨ saved confirmed failure advance done_msg fetch feed w →
  EWriteFile d false ∈ events feed →
  result feed = Done tt ∧
  (file (after feed) = file w ∨ file (after feed) = None) ∧
  LogError "Failed to write data.json:" ∈ events feed ∧
  Log done_msg ∈ events feed.
Proof.
  intros [(Hnw & _ & _)|
          (pre & a & ok & e & Hev & Hpre & _ & _ & _ & _ & Hr & Hfile)] Hin.
  - apply (proj1 (Forall_forall _ _) Hnw) in Hin. by destruct Hin.
  - rewrite Hev in Hin |- *. destruct ok.
    + exfalso. apply elem_of_app in Hin as [Hin|Hin].
      * apply (proj1 (Forall_forall _ _) Hpre) in Hin. by destruct Hin.
      * absent Hin.
    + split; [done|]. split; [done|].
      split; apply elem_of_app; right; present.
Qed.

End Pass.

(** The taxonomy feed returns normally when its store write fails. *)
Lemma syncSteamTags_write_failure E w :
  LogError "Error inserting or updating tags:"
    ∈ events (jobs.syncSteamTags E w) →
  result (jobs.syncSteamTags E w) = Done tt.
Proof.
  rewrite syncSteamTags_run. cbv zeta.
  pose proof (fetchTags_frame E (stored E w) (step w)) as Hframe.
  destruct (jobs.fetchTags E (stored E w) (step w)) as [[tl| |] aft evs];
    destruct Hframe as [_ Hq]; cbn [result after events] in *.
  2,3: intros Hin; apply (proj1 (Forall_forall _ _) Hq) in Hin;
       by destruct Hin.
  destruct (decide _); [done|].
  pose proof (insertOrUpdateTags_frame E (tags tl) aft) as Hw.
  destruct (database.insertOrUpdateTags E (tags tl) aft) as [rw aftw evsw].
  by destruct Hw as [_ [(-> & _)|(-> & _)]].
Qed.

Lemma syncSteamTags_discipline E w :
  watermark_discipline tags_written "Error inserting or updating tags:"
    (λ tl, {| lastTagHash := tagHash tl;
              lastAppTime := lastAppTime (stored E w) |})
    (jobs.fetchTags E (stored E w) (step w)) (jobs.syncSteamTags E w) w.
Proof. eapply shape_discipline; [done | apply syncSteamTags_shape]. Qed.

Lemma syncSteamApps_discipline E fuel w :
  watermark_discipline apps_written "Error inserting or updating apps:"
    (λ al, {| lastTagHash := lastTagHash (stored E w);
              lastAppTime := Some (time al) |})
    (jobs.fetchApps E fuel (stored E w) (step w))
    (jobs.syncSteamApps E fuel w) w.
Proof. eapply shape_discipline; [done | apply syncSteamApps_shape]. Qed.

(** When the taxonomy feed returns, the pass is the catalog feed run from
    the world the taxonomy feed left. *)
Lemma catalog_feed_follows E fuel w u :
  let rt := jobs.syncSteamTags E w in
  let ra := jobs.syncSteamApps E fuel (after rt) in
  let pass := jobs.syncWithSteam E fuel w in
  result rt = Done u →
  result pass = result ra ∧ after pass = after ra ∧
  ∃ tail, events pass =
            Log "Syncing with Steam..." :: events rt ++ events ra ++ tail.
Proof.
  intros rt ra pass Hu. subst pass. rewrite syncWithSteam_run. cbv zeta.
  fold rt. rewrite Hu. fold ra. eauto.
Qed.

(** C1 (as amended).  In each feed of a pass, a write of [data.json] is
    attempted only after the store write of that feed succeeded (the upsert
    of the tags, the COMMIT of the apps).  When the fetch throws the feed
    throws, and a feed that throws or whose store write reports failure
    attempts no write: the file, hence both watermarks, are as they were.  A
    write that succeeds stores a record whose watermark of this feed is
    exactly the value the fetch step of this pass returned (its [tagHash],
    its [time]) and whose other watermark is the one the feed read at its
    start, which is the one the file held when the file could be read and
    none when it could not.  That write happens whenever the store write
    succeeded and the disk accepts it. *)
Theorem watermark_advances_only_after_write E fuel w :
  let data := stored E w in
  let ft := jobs.fetchTags E data (step w) in
  let fa := jobs.fetchApps E fuel data (step w) in
  let next_hash tl :=
    {| lastTagHash := tagHash tl; lastAppTime := lastAppTime data |} in
  let next_time al :=
    {| lastTagHash := lastTagHash data; lastAppTime := Some (time al) |} in
  watermark_discipline tags_written "Error inserting or updating tags:"
    next_hash ft (jobs.syncSteamTags E w) w ∧
  watermark_discipline apps_written "Error inserting or updating apps:"
    next_time fa (jobs.syncSteamApps E fuel w) w ∧
  (fs_read_ok E (tick w) = true → data = persisted w) ∧
  (fs_read_ok E (tick w) = false → data = jobs.empty_data) ∧
  (∀ tl,
     let rw := database.insertOrUpdateTags E (tags tl) (after ft) in
     result ft = Done tl → tags tl ≠ [] →
     result rw = Done true → fs_write_ok E (tick (after rw)) = true →
     file (after (jobs.syncSteamTags E w)) = Some (next_hash tl)) ∧
  (∀ al details,
     let rd := steam.getSteamAppDetails E (appId <$> al_apps al) (after fa) in
     let rw := database.insertOrUpdateApps E details (after rd) in
     result fa = Done al → al_apps al ≠ [] → result rd = Done details →
     result rw = Done true → fs_write_ok E (tick (after rw)) = true →
     file (after (jobs.syncSteamApps E fuel w)) = Some (next_time al)).
Proof.
  intros data ft fa next_hash next_time.
  split; [apply syncSteamTags_discipline|].
  split; [apply syncSteamApps_discipline|].
  split; [intros Hread; subst data; unfold stored; by rewrite Hread|].
  split; [intros Hread; subst data; unfold stored; by rewrite Hread|].
  split.
  - intros tl rw Hft Hne Hrw Hfs.
    by destruct (syncSteamTags_advances E w tl Hft Hne Hrw Hfs).
  - intros al details rd rw Hfa Hne Hrd Hrw Hfs.
    by destruct (syncSteamApps_advances E fuel w al details
                   Hfa Hne Hrd Hrw Hfs).
Qed.

Lemma watermark_advances_only_after_write_witness :
  file (after (jobs.syncSteamTags Examples.healthy Examples.fresh)) =
    Some {| lastTagHash := Some 77%Z; lastAppTime := None |} ∧
  file (after (jobs.syncSteamApps Examples.healthy 5 Examples.populated)) =
    Some {| lastTagHash := Some 77%Z; lastAppTime := Some 1000%Z |} ∧
  file (after (jobs.syncSteamApps Examples.healthy 5 Examples.fresh)) =
    file Examples.fresh.
Proof.
  split; [|split].
  - destruct (watermark_advances_only_after_write Examples.healthy 5
                Examples.fresh) as (_ & _ & _ & _ & Hadv & _).
    apply (Hadv {| tags := [ {| id := 1; tag_name := "Action" |};
                             {| id := 2; tag_name := "RPG" |} ]%Z;
                   tagHash := Some 77%Z |}); by vm_compute.
  - destruct (watermark_advances_only_after_write Examples.healthy 5
                Examples.populated) as (_ & _ & _ & _ & _ & Hadv).
    apply (Hadv {| al_apps := [ {| appId := 10; name := "Game" |} ]%Z;
                   time := 1000%Z |}
             [steam.to_AppDetails (Examples.item 10)]); by vm_compute.
  - destruct (watermark_advances_only_after_write Examples.healthy 5
                Examples.fresh) as (_ & (_ & _ & _ & Hfail & _) & _).
    apply Hfail. vm_compute. present.
Defined.

(** C1 as stated does not hold: a watermark can change without a store
    write of its own feed.  [data.json] holds both watermarks and every save
    rewrites it whole from what the feed read at its start.  Here the file
    holds [lastAppTime] 500 but cannot be read when the taxonomy feed
    starts; the feed stores its tags, saves, and the file it leaves has no
    [lastAppTime] any more, although the run holds no statement of the
    catalog feed at all. *)
Lemma taxonomy_save_erases_the_catalog_watermark :
  let rt := jobs.syncSteamTags Examples.unreadable Examples.populated in
  lastAppTime (persisted Examples.populated) = Some 500%Z ∧
  result rt = Done tt ∧
  events rt =
    [EFetch (GetTagList 0);
     EQuery (TagsUpsert [(1, "Action"); (2, "RPG")]%Z) true;
     EWriteFile {| lastTagHash := Some 77%Z; lastAppTime := None |} true;
     Log "Steam tags synced"] ∧
  lastAppTime (persisted (after rt)) = None ∧
  ¬ (∀ E w,
       lastAppTime (persisted (after (jobs.syncSteamTags E w))) ≠
         lastAppTime (persisted w) →
       ∃ e, e ∈ events (jobs.syncSteamTags E w) ∧ apps_written e).
Proof.
  repeat split; try by vm_compute.
  intros claim.
  destruct (claim Examples.unreadable Examples.populated) as (e & He & Hc).
  - by vm_compute.
  - unfold apps_written in Hc. subst e. vm_compute in He. absent He.
Qed.

(** C5. In each feed, when the fetch returns an empty result (no tag, no
    updated app), the feed returns normally, [data.json] and all stored rows
    are what they were, and all the feed did was to send its requests and to
    write to the console: the store writer was not called and no save was
    attempted. *)
Theorem empty_fetch_is_a_no_op E fuel w :
  let data := stored E w in
  (∀ tl, result (jobs.fetchTags E data (step w)) = Done tl → tags tl = [] →
     let r := jobs.syncSteamTags E w in
     result r = Done tt ∧ untouched r w ∧ Forall quiet (events r)) ∧
  (∀ al, result (jobs.fetchApps E fuel data (step w)) = Done al →
     al_apps al = [] →
     let r := jobs.syncSteamApps E fuel w in
     result r = Done tt ∧ untouched r w ∧ Forall quiet (events r)).
Proof.
  split.
  - intros tl. apply syncSteamTags_nothing_new.
  - intros al. apply syncSteamApps_nothing_new.
Qed.

Lemma empty_fetch_is_a_no_op_witness :
  let rt := jobs.syncSteamTags Examples.steady Examples.populated in
  let ra := jobs.syncSteamApps Examples.steady 5 Examples.populated in
  (result rt = Done tt ∧ untouched rt Examples.populated ∧
   Forall quiet (events rt)) ∧
  (result ra = Done tt ∧ untouched ra Examples.populated ∧
   Forall quiet (events ra)).
Proof.
  destruct (empty_fetch_is_a_no_op Examples.steady 5 Examples.populated)
    as [Ht Ha].
  split.
  - by apply (Ht {| tags := []; tagHash := Some 77%Z |}).
  - by apply (Ha {| al_apps := []; time := 500%Z |}).
Defined.

(** C4 (as amended).  A feed that fails, by throwing or by a store write that
    reports failure, leaves [data.json] and every table exactly as it found
    them, so it cannot corrupt what the other feed owns.  A taxonomy feed
    whose store write fails still returns, and whenever the taxonomy feed
    returns the catalog feed runs next, from the world the taxonomy feed
    left.  An error thrown in the taxonomy feed, however, ends the pass: it is
    rethrown by [syncWithSteam] and the catalog feed is not started. *)
Theorem feeds_in_one_pass E fuel w :
  let rt := jobs.syncSteamTags E w in
  let ra := jobs.syncSteamApps E fuel (after rt) in
  let pass := jobs.syncWithSteam E fuel w in
  (LogError "Error inserting or updating tags:" ∈ events rt →
     untouched rt w ∧ result rt = Done tt) ∧
  (∀ u, result rt = Done u →
     result pass = result ra ∧ after pass = after ra ∧
     ∃ tail, events pass =
               Log "Syncing with Steam..." :: events rt ++ events ra ++ tail) ∧
  (∀ e, result rt = Thrown e →
     untouched rt w ∧ result pass = Thrown e ∧ after pass = after rt ∧
     events pass = Log "Syncing with Steam..." :: events rt) ∧
  ((∃ e, result ra = Thrown e) ∨
   LogError "Error inserting or updating apps:" ∈ events ra →
     untouched ra (after rt)).
Proof.
  intros rt ra pass.
  destruct (syncSteamTags_discipline E w) as (_ & _ & Htt & Htl & _).
  destruct (syncSteamApps_discipline E fuel (after rt))
    as (_ & _ & Hat & Hal & _).
  fold rt in Htt, Htl. fold ra in Hat, Hal.
  pose proof (syncWithSteam_run E fuel w) as Hpass. cbv zeta in Hpass.
  fold rt ra pass in Hpass.
  split; [intros Hin; split;
            [by apply Htl | by apply syncSteamTags_write_failure]|].
  split; [|split].
  - intros u. apply catalog_feed_follows.
  - intros e He. rewrite He in Hpass. rewrite Hpass. split; [by eapply Htt|done].
  - intros [[e He]|Hin]; [by eapply Hat | by apply Hal].
Qed.

Lemma feeds_in_one_pass_witness :
  let rt := jobs.syncSteamTags Examples.db_down Examples.populated in
  let pass := jobs.syncWithSteam Examples.db_down 5 Examples.populated in
  untouched rt Examples.populated ∧ result rt = Done tt ∧
  after pass = after (jobs.syncSteamApps Examples.db_down 5 (after rt)).
Proof.
  destruct (feeds_in_one_pass Examples.db_down 5 Examples.populated)
    as (Hfail & Hnext & _).
  destruct Hfail as [Hsame Hdone]; [vm_compute; present|].
  split; [exact Hsame|]. split; [exact Hdone|].
  by destruct (Hnext tt Hdone) as (_ & Hafter & _).
Defined.

(** C4 as stated does not hold: with the tag endpoint unreachable, the
    taxonomy feed throws, the pass stops with that error after the single
    tag request, and the catalog feed, which from the same world would have
    fetched app 10 and advanced its watermark from 500 to 1000, never runs. *)
Lemma taxonomy_error_stops_the_pass :
  let rt := jobs.syncSteamTags Examples.tags_down Examples.populated in
  let ra := jobs.syncSteamApps Examples.tags_down 5 (after rt) in
  let pass := jobs.syncWithSteam Examples.tags_down 5 Examples.populated in
  result rt = Thrown NetworkError ∧
  result pass = Thrown NetworkError ∧
  events pass = [Log "Syncing with Steam..."; EFetch (GetTagList 77)] ∧
  (lastAppTime <$> file (after pass)) = Some (Some 500%Z) ∧
  result ra = Done tt ∧
  (lastAppTime <$> file (after ra)) = Some (Some 1000%Z) ∧
  ¬ (∀ E fuel w e,
       result (jobs.syncSteamTags E w) = Thrown e →
       after (jobs.syncWithSteam E fuel w) =
         after (jobs.syncSteamApps E fuel (after (jobs.syncSteamTags E w)))).
Proof.
  repeat split; try by vm_compute.
  intros claim.
  specialize (claim Examples.tags_down 5 Examples.populated NetworkError
                eq_refl).
  apply (f_equal file) in claim. vm_compute in claim. discriminate.
Qed.

(** C9 (as amended).  A save of [data.json] that fails is logged on the error
    console and swallowed: [setDataJson] returns normally, exactly as after a
    successful save, so the process does not crash and the caller is told
    nothing.  The save has not advanced the watermark: it leaves the file as
    it was when the write was refused before the file was opened, and
    without contents that can be parsed when the write failed after the
    truncation, in which case the watermarks of both feeds are lost.  In the
    feed where it happens, the feed still announces that it has synced and
    returns normally, and after the taxonomy feed the pass goes on with the
    catalog feed. *)
Theorem failed_save_is_logged_and_swallowed E fuel w :
  let rt := jobs.syncSteamTags E w in
  let ra := jobs.syncSteamApps E fuel (after rt) in
  let pass := jobs.syncWithSteam E fuel w in
  (∀ d w', fs_write_ok E (tick w') = false →
     let r := jobs.setDataJson E d w' in
     result r = Done tt ∧
     events r = [EWriteFile d false;
                 LogError "Failed to write data.json:"] ∧
     db (after r) = db w' ∧
     file (after r) = if fs_write_torn E (tick w') then None else file w') ∧
  (∀ d, EWriteFile d false ∈ events rt →
     result rt = Done tt ∧
     (file (after rt) = file w ∨ file (after rt) = None) ∧
     LogError "Failed to write data.json:" ∈ events rt ∧
     Log "Steam tags synced" ∈ events rt ∧
     result pass = result ra ∧ after pass = after ra) ∧
  (∀ d, EWriteFile d false ∈ events ra →
     result ra = Done tt ∧
     (file (after ra) = file (after rt) ∨ file (after ra) = None) ∧
     LogError "Failed to write data.json:" ∈ events ra ∧
     Log "Steam apps synced" ∈ events ra).
Proof.
  intros rt ra pass.
  split; [intros d w'; apply setDataJson_failure|].
  split.
  - intros d Hin.
    destruct (failed_save_in_feed _ _ _ _ _ _ _ d (syncSteamTags_shape E w) Hin)
      as (Hr & Hfile & Hlog & Hdone).
    destruct (catalog_feed_follows E fuel w tt Hr) as (Hres & Hafter & _).
    by repeat split.
  - intros d Hin.
    by destruct (failed_save_in_feed _ _ _ _ _ _ _ d
                   (syncSteamApps_shape E fuel (after rt)) Hin)
      as (Hr & Hfile & Hlog & Hdone).
Qed.

Lemma failed_save_is_logged_and_swallowed_witness :
  let rt := jobs.syncSteamTags Examples.read_only Examples.populated in
  result rt = Done tt ∧
  (file (after rt) = file Examples.populated ∨ file (after rt) = None) ∧
  LogError "Failed to write data.json:" ∈ events rt ∧
  Log "Steam tags synced" ∈ events rt.
Proof.
  destruct (failed_save_is_logged_and_swallowed Examples.read_only 5
              Examples.populated) as (_ & Hfeed & _).
  destruct (Hfeed {| lastTagHash := Some 77%Z; lastAppTime := Some 500%Z |})
    as (Hr & Hfile & Hlog & Hdone & _); [vm_compute; present|].
  by repeat split.
Defined.

(** C9 as stated does not hold.  When the disk is full nothing is
    surfaced: [setDataJson] gives its caller what it gives after a
    successful save, and the taxonomy feed ends as it does on success, its
    last word being that the tags are synced.  Nor is the other feed
    unaffected: the write failed after it had truncated the file, so the
    [lastAppTime] 500 that the file held is gone, and the catalog feed that
    comes next lists the apps from time 0 on. *)
Lemma failed_save_goes_unreported :
  let d := {| lastTagHash := Some 77%Z; lastAppTime := Some 500%Z |} in
  let saved := jobs.setDataJson Examples.healthy d Examples.populated in
  let failed := jobs.setDataJson Examples.disk_full d Examples.populated in
  let feed := jobs.syncSteamTags Examples.disk_full Examples.populated in
  let next := jobs.syncSteamApps Examples.disk_full 5 (after feed) in
  fs_write_ok Examples.disk_full (tick Examples.populated) = false ∧
  result failed = result saved ∧
  result feed =
    result (jobs.syncSteamTags Examples.healthy Examples.populated) ∧
  last (events feed) = Some (Log "Steam tags synced") ∧
  EWriteFile d false ∈ events feed ∧
  lastAppTime (persisted Examples.populated) = Some 500%Z ∧
  lastAppTime (persisted (after feed)) = None ∧
  EFetch (GetAppList 0 0 50000) ∈ events next.
Proof.
  repeat split; try by vm_compute.
  - vm_compute. present.
  - vm_compute. present.
Qed.

(** * Further properties *)

(** ** The identifier listing beyond its normal end *)

Section ListingMore.
Context (E : Env).
Import steam.

Lemma after_events_nil {A} (r : Run A) : after_events [] r = r.
Proof. by destruct r. Qed.

Lemma after_events_app {A} evs1 evs2 (r : Run A) :
  after_events evs1 (after_events evs2 r) = after_events (evs1 ++ evs2) r.
Proof. unfold after_events. simpl. by rewrite app_assoc. Qed.

Lemma later_tick n w : tick (later n w) = tick w + n.
Proof.
  unfold later. induction n as [|n IH]; simpl; [lia|]. rewrite IH. lia.
Qed.

Lemma later_untouched n w : file (later n w) = file w ∧ db (later n w) = db w.
Proof.
  unfold later. induction n as [|n IH]; [done|]. simpl. by destruct IH.
Qed.

Lemma later_step n w : later n (step w) = later (S n) w.
Proof. unfold later. by rewrite Nat.iter_succ_r. Qed.

(** [getSteamApps] is its loop, started at cursor 0 with nothing gathered,
    one moment after the clock was read. *)
Lemma getSteamApps_run fuel lastTime w :
  getSteamApps E fuel lastTime w =
    getSteamApps_loop E fuel (default 0%Z lastTime) (clock E (tick w))
      (Some 0%Z) [] (step w).
Proof.
  unfold getSteamApps, bind, now.
  by destruct (getSteamApps_loop E fuel _ _ _ _ _).
Qed.

(** Pages that carry identifiers and announce more results only move the
    loop forward: one request each, their identifiers gathered, the cursor
    taken from the last of them. *)
Lemma getSteamApps_loop_prefix ps : ∀ fuel lastTime time cursor acc w,
  serves E lastTime (tick w) cursor ps →
  Forall (λ p, apps p ≠ Some []) ps →
  Forall (λ p, have_more_results p = true) ps →
  getSteamApps_loop E (length ps + fuel) lastTime time cursor acc w =
    after_events (EFetch <$> requests lastTime cursor ps)
      (getSteamApps_loop E fuel lastTime time (cursor_after cursor ps)
         (acc ++ concat (page_ids <$> ps)) (later (length ps) w)).
Proof.
  induction ps as [|p ps IH];
    intros fuel lastTime time cursor acc w Hserves Hfull Hmore.
  - simpl. by rewrite app_nil_r, after_events_nil.
  - simpl in Hserves. destruct Hserves as (c & st & -> & Hpage & Hrest).
    rewrite Forall_cons in Hfull. destruct Hfull as [Hp Hfull].
    rewrite Forall_cons in Hmore. destruct Hmore as [Hpm Hmore].
    specialize (IH fuel lastTime time (last_appid p) (acc ++ page_ids p)
                  (step w) Hrest Hfull Hmore).
    cbn [length Nat.add getSteamApps_loop]. unfold bind, fetch.
    rewrite Hpage.
    replace (page_is_empty {| al_response := Some p |}) with false
      by (unfold page_is_empty; simpl; by destruct (apps p) as [[|??]|]).
    cbn [al_response]. rewrite Hpm.
    replace (page_apps {| al_response := Some p |}) with (page_ids p)
      by done.
    rewrite IH, later_step. cbn [fmap list_fmap concat requests cursor_after
                                 foldl default].
    unfold after_events. simpl. by rewrite <- app_assoc.
Qed.

Lemma getSteamApps_prefix ps fuel lastTime w :
  serves E (default 0%Z lastTime) (S (tick w)) (Some 0%Z) ps →
  Forall (λ p, apps p ≠ Some []) ps →
  Forall (λ p, have_more_results p = true) ps →
  getSteamApps E (length ps + fuel) lastTime w =
    after_events (EFetch <$> requests (default 0%Z lastTime) (Some 0%Z) ps)
      (getSteamApps_loop E fuel (default 0%Z lastTime) (clock E (tick w))
         (cursor_after (Some 0%Z) ps) (concat (page_ids <$> ps))
         (later (S (length ps)) w)).
Proof.
  intros Hserves Hfull Hmore. rewrite getSteamApps_run.
  rewrite (getSteamApps_loop_prefix ps) by done.
  by rewrite later_step.
Qed.

End ListingMore.

(** X1. Whatever [getSteamApps] has gathered so far, a page request that
    fails (the request is rejected, the status is not a success, or the body
    is not JSON) makes it throw the corresponding error at once: the
    identifiers of the earlier pages are given up, no further request is
    sent, and neither [data.json] nor the tables are touched. *)
Theorem getSteamApps_page_failure E fuel lastTime w ps c e :
  let lt := default 0%Z lastTime in
  serves E lt (S (tick w)) (Some 0%Z) ps →
  Forall (λ p, apps p ≠ Some []) ps →
  Forall (λ p, have_more_results p = true) ps →
  cursor_after (Some 0%Z) ps = Some c →
  fetch_failure "Failed to fetch Steam apps: "
    (remote_applist E (S (tick w) + length ps) (GetAppList lt c 50000))
    = Some e →
  let r := steam.getSteamApps E (length ps + S fuel) lastTime w in
  result r = Thrown e ∧
  events r = EFetch <$> (requests lt (Some 0%Z) ps ++ [GetAppList lt c 50000]) ∧
  untouched r w.
Proof.
  intros lt Hserves Hfull Hmore Hc Hfail r. subst r lt.
  rewrite getSteamApps_prefix by done.
  destruct (later_untouched (S (length ps)) w) as [Hf Hd].
  pose proof (later_tick (S (length ps)) w) as Ht.
  replace (tick w + S (length ps)) with (S (tick w) + length ps) in Ht by lia.
  rewrite Hc. cbn [steam.getSteamApps_loop]. unfold bind, steam.fetch.
  rewrite Ht, fmap_app.
  destruct (remote_applist E _ _) as [|[] st [data|]];
    simpl in Hfail; try discriminate; injection Hfail as <-;
    unfold after_events, untouched, throw;
    cbn [result after events file db step fmap list_fmap];
    by rewrite Hf, Hd.
Qed.

Lemma getSteamApps_page_failure_witness :
  let r := steam.getSteamApps Examples.flaky 5 (Some 500%Z) Examples.fresh in
  result r = Thrown NetworkError ∧
  events r = [EFetch (GetAppList 500 0 50000);
              EFetch (GetAppList 500 2 50000)].
Proof.
  destruct (getSteamApps_page_failure Examples.flaky 3 (Some 500%Z)
              Examples.fresh [Examples.page [1; 2]%Z true (Some 2%Z)] 2%Z
              NetworkError) as (Hr & He & _).
  - simpl. eexists _, _. split; [reflexivity|]. split; [reflexivity|]. exact I.
  - repeat constructor; simpl; discriminate.
  - repeat constructor.
  - reflexivity.
  - reflexivity.
  - split; [exact Hr | exact He].
Defined.

(** X2. The emptiness guard of [getSteamApps] is tested on every page, not
    only on the first: when a later page arrives with an identifier array of
    length zero, the identifiers gathered from the earlier pages are dropped
    and the call returns no identifier at all, with the input [lastTime]. *)
Theorem getSteamApps_later_empty_page E fuel lastTime w ps c st p :
  let lt := default 0%Z lastTime in
  serves E lt (S (tick w)) (Some 0%Z) ps →
  Forall (λ p, apps p ≠ Some []) ps →
  Forall (λ p, have_more_results p = true) ps →
  cursor_after (Some 0%Z) ps = Some c →
  remote_applist E (S (tick w) + length ps) (GetAppList lt c 50000) =
    Resp true st (Some {| al_response := Some p |}) →
  apps p = Some [] →
  let r := steam.getSteamApps E (length ps + S fuel) lastTime w in
  result r = Done {| al_apps := []; time := lt |} ∧
  events r = EFetch <$> (requests lt (Some 0%Z) ps ++ [GetAppList lt c 50000]).
Proof.
  intros lt Hserves Hfull Hmore Hc Hpage Hempty r. subst r lt.
  rewrite getSteamApps_prefix by done.
  pose proof (later_tick (S (length ps)) w) as Ht.
  replace (tick w + S (length ps)) with (S (tick w) + length ps) in Ht by lia.
  rewrite Hc. cbn [steam.getSteamApps_loop]. unfold bind, steam.fetch.
  rewrite Ht, Hpage. unfold steam.page_is_empty. simpl.
  rewrite Hempty. simpl. split; [done | by rewrite fmap_app].
Qed.

Lemma getSteamApps_later_empty_page_witness :
  let r := steam.getSteamApps Examples.dries_up 5 (Some 500%Z)
             Examples.fresh in
  result r = Done {| al_apps := []; time := 500%Z |} ∧
  events r = [EFetch (GetAppList 500 0 50000);
              EFetch (GetAppList 500 2 50000)].
Proof.
  apply (getSteamApps_later_empty_page Examples.dries_up 3 (Some 500%Z)
           Examples.fresh [Examples.page [1; 2]%Z true (Some 2%Z)] 2%Z
           "OK" (Examples.page [] false None)).
  - simpl. eexists _, _. split; [reflexivity|]. split; [reflexivity|]. exact I.
  - repeat constructor; simpl; discriminate.
  - repeat constructor.
  - reflexivity.
  - reflexivity.
  - reflexivity.
Defined.

(** X3. A page that announces more results without a [last_appid] ends
    [getSteamApps] with a TypeError: the next request cannot be built, so it
    is not sent, and what was gathered is lost. *)
Theorem getSteamApps_missing_cursor E fuel lastTime w ps :
  let lt := default 0%Z lastTime in
  serves E lt (S (tick w)) (Some 0%Z) ps →
  Forall (λ p, apps p ≠ Some []) ps →
  Forall (λ p, have_more_results p = true) ps →
  cursor_after (Some 0%Z) ps = None →
  let r := steam.getSteamApps E (length ps + S fuel) lastTime w in
  result r = Thrown TypeError ∧
  events r = EFetch <$> requests lt (Some 0%Z) ps.
Proof.
  intros lt Hserves Hfull Hmore Hc r. subst r lt.
  rewrite getSteamApps_prefix by done.
  rewrite Hc. simpl. by rewrite app_nil_r.
Qed.

Lemma getSteamApps_missing_cursor_witness :
  let r := steam.getSteamApps Examples.cursorless 5 None Examples.fresh in
  result r = Thrown TypeError ∧ events r = [EFetch (GetAppList 0 0 50000)].
Proof.
  apply (getSteamApps_missing_cursor Examples.cursorless 3 None
           Examples.fresh [Examples.page [1; 2]%Z true None]).
  - simpl. eexists _, _. split; [reflexivity|]. split; [reflexivity|]. exact I.
  - repeat constructor; simpl; discriminate.
  - repeat constructor.
  - reflexivity.
Defined.

(** X4. [getSteamApps] puts no bound on the number of pages: after any
    number of pages that carry identifiers and announce more results it has
    sent one request per page and is still running. *)
Theorem getSteamApps_keeps_asking E lastTime w ps :
  let lt := default 0%Z lastTime in
  serves E lt (S (tick w)) (Some 0%Z) ps →
  Forall (λ p, apps p ≠ Some []) ps →
  Forall (λ p, have_more_results p = true) ps →
  let r := steam.getSteamApps E (length ps) lastTime w in
  result r = OutOfFuel ∧
  events r = EFetch <$> requests lt (Some 0%Z) ps.
Proof.
  intros lt Hserves Hfull Hmore r. subst r lt.
  pose proof (getSteamApps_prefix E ps 0 lastTime w Hserves Hfull Hmore)
    as Hrun.
  rewrite Nat.add_0_r in Hrun. rewrite Hrun.
  unfold after_events, diverge. simpl. by rewrite app_nil_r.
Qed.

Lemma getSteamApps_keeps_asking_witness :
  let r := steam.getSteamApps Examples.endless 3 None Examples.fresh in
  result r = OutOfFuel ∧
  events r = [EFetch (GetAppList 0 0 50000); EFetch (GetAppList 0 1 50000);
              EFetch (GetAppList 0 1 50000)].
Proof.
  apply (getSteamApps_keeps_asking Examples.endless None Examples.fresh
           (replicate 3 (Examples.page [1]%Z true (Some 1%Z)))).
  - simpl. eexists _, _. split; [reflexivity|]. split; [reflexivity|].
    eexists _, _. split; [reflexivity|]. split; [reflexivity|].
    eexists _, _. split; [reflexivity|]. split; [reflexivity|]. exact I.
  - repeat constructor; simpl; discriminate.
  - repeat constructor.
Defined.

(** ** The detail fetch, whatever the remote sends *)

Section DetailsMore.
Context (E : Env).
Import steam.

Lemma delivers_length t cs itemss :
  delivers E t cs itemss → length itemss = length cs.
Proof.
  revert t itemss. induction cs as [|c cs IH]; intros t [|items itemss];
    simpl; try done.
  intros [_ H]. f_equal. by eapply IH.
Qed.

(** Chunks that are answered only move the loop forward: one request each,
    their unflagged items gathered in order. *)
Lemma getSteamAppDetails_loop_prefix cs1 : ∀ cs2 itemss acc w,
  delivers E (tick w) cs1 itemss →
  getSteamAppDetails_loop E (cs1 ++ cs2) acc w =
    after_events ((λ c, EFetch (GetItems c)) <$> cs1)
      (getSteamAppDetails_loop E cs2
         (acc ++ concat (available <$> itemss)) (later (length cs1) w)).
Proof.
  induction cs1 as [|c cs1 IH]; intros cs2 [|items itemss] acc w Hd;
    simpl in Hd; try done.
  - simpl. by rewrite app_nil_r, after_events_nil.
  - destruct Hd as [[st Hanswer] Hd].
    specialize (IH cs2 itemss (acc ++ available items) (step w) Hd).
    cbn [app getSteamAppDetails_loop]. unfold bind, fetch.
    rewrite Hanswer. cbn [it_response store_items].
    rewrite IH, later_step. unfold after_events. simpl.
    by rewrite <- app_assoc.
Qed.

(** The apps that [getSteamAppDetails] returns are built from store items
    by [to_AppDetails]. *)
Lemma getSteamAppDetails_built appIds w details :
  result (getSteamAppDetails E appIds w) = Done details →
  ∃ items, details = to_AppDetails <$> items.
Proof.
  unfold getSteamAppDetails, bind.
  destruct (getSteamAppDetails_loop E _ _ _) as [[items| |] aft evs];
    simpl; intros [=]. by exists items.
Qed.

End DetailsMore.

(** X5. [getSteamAppDetails] never sends an empty request and never asks
    for more than 250 ids at once, and the number of requests it prepares for
    [n] ids is [n / 250] rounded up. *)
Theorem chunks_bounds (appIds : list Z) :
  Forall (λ c, 0 < length c ≤ 250) (steam.chunks appIds) ∧
  length (steam.chunks appIds) = (length appIds + 249) / 250.
Proof.
  assert (∀ k, k < length (steam.chunks appIds) ↔ 250 * k < length appIds)
    as Hcount.
  { intros k. rewrite <- lookup_lt_is_Some, chunks_lookup.
    case_decide; split; intros H'; try done; lia. }
  split.
  - apply Forall_lookup. intros k c Hk. rewrite chunks_lookup in Hk.
    case_decide; [|done]. injection Hk as <-.
    rewrite length_take, length_drop. lia.
  - pose proof (Hcount (length (steam.chunks appIds))) as Hhi.
    pose proof (Hcount (length (steam.chunks appIds) - 1)) as Hlo.
    pose proof (Nat.div_mod_eq (length appIds + 249) 250) as Hdiv.
    pose proof (Nat.mod_upper_bound (length appIds + 249) 250 ltac:(lia)).
    lia.
Qed.

(** X6. [getSteamAppDetails] does not compare what the remote sends with
    what it asked for: when every chunk is answered, whatever the answers
    hold, the result is the items of the first answer, then those of the
    second, and so on, in the order received and without the flagged ones,
    and nothing but requests has happened. *)
Theorem getSteamAppDetails_takes_what_it_gets E appIds w itemss :
  delivers E (tick w) (steam.chunks appIds) itemss →
  let r := steam.getSteamAppDetails E appIds w in
  result r =
    Done (steam.to_AppDetails <$> concat (steam.available <$> itemss)) ∧
  events r = (λ c, EFetch (GetItems c)) <$> steam.chunks appIds ∧
  untouched r w.
Proof.
  intros Hd r. subst r. unfold steam.getSteamAppDetails, bind.
  pose proof (getSteamAppDetails_loop_prefix E (steam.chunks appIds) []
                itemss [] w Hd) as Hrun.
  rewrite app_nil_r in Hrun. rewrite Hrun.
  destruct (later_untouched (length (steam.chunks appIds)) w) as [Hf Hd'].
  unfold after_events, untouched. simpl. rewrite !app_nil_r. by rewrite Hf, Hd'.
Qed.

Lemma getSteamAppDetails_takes_what_it_gets_witness :
  let r := steam.getSteamAppDetails Examples.mislabelled [10]%Z
             Examples.fresh in
  result r = Done [steam.to_AppDetails (Examples.item 1010)] ∧
  events r = [EFetch (GetItems [10]%Z)] ∧
  untouched r Examples.fresh.
Proof.
  apply (getSteamAppDetails_takes_what_it_gets Examples.mislabelled [10]%Z
           Examples.fresh [[Examples.item 1010]]).
  simpl. split; [by eexists | exact I].
Defined.

(** X7. When the request for a chunk fails, [getSteamAppDetails] throws the
    corresponding error and returns nothing of what the earlier chunks
    gave; the later chunks are not requested and neither [data.json] nor the
    tables are touched. *)
Theorem getSteamAppDetails_chunk_failure E appIds w cs1 c cs2 itemss e :
  steam.chunks appIds = cs1 ++ c :: cs2 →
  delivers E (tick w) cs1 itemss →
  fetch_failure "Failed to fetch Steam app details: "
    (remote_items E (tick w + length cs1) (GetItems c)) = Some e →
  let r := steam.getSteamAppDetails E appIds w in
  result r = Thrown e ∧
  events r = (λ c, EFetch (GetItems c)) <$> (cs1 ++ [c]) ∧
  untouched r w.
Proof.
  intros Hcs Hd Hfail r. subst r. unfold steam.getSteamAppDetails, bind.
  rewrite Hcs, (getSteamAppDetails_loop_prefix E cs1 (c :: cs2) itemss)
    by done.
  destruct (later_untouched (length cs1) w) as [Hf Hd'].
  cbn [steam.getSteamAppDetails_loop]. unfold bind, steam.fetch.
  rewrite later_tick, fmap_app.
  destruct (remote_items E _ _) as [|[] st [data|]];
    simpl in Hfail; try discriminate; injection Hfail as <-;
    unfold after_events, untouched, throw;
    cbn [result after events file db step fmap list_fmap];
    by rewrite Hf, Hd'.
Qed.

Lemma getSteamAppDetails_chunk_failure_witness :
  let r := steam.getSteamAppDetails Examples.throttled Examples.six_hundred
             Examples.fresh in
  result r =
    Thrown (HttpError
              "Failed to fetch Steam app details: Too Many Requests") ∧
  length (events r) = 2.
Proof.
  destruct (getSteamAppDetails_chunk_failure Examples.throttled
              Examples.six_hundred Examples.fresh
              [take 250 Examples.six_hundred]
              (take 250 (drop 250 Examples.six_hundred))
              [drop 500 Examples.six_hundred]
              [Examples.item <$> take 250 Examples.six_hundred]
              (HttpError
                 "Failed to fetch Steam app details: Too Many Requests"))
    as (Hr & He & _).
  - by vm_compute.
  - simpl. split; [by eexists | exact I].
  - by vm_compute.
  - split; [exact Hr|]. by rewrite He.
Defined.

(** X8. Whatever Steam answers, the apps that [getSteamAppDetails] returns
    carry neither colour nor player count, so every row that a successful
    [insertOrUpdateApps] writes for them holds the name and the description
    of the app and NULL in both other columns. *)
Theorem fetched_apps_are_stored_without_colour E appIds w w' details a :
  result (steam.getSteamAppDetails E appIds w) = Done details →
  result (database.insertOrUpdateApps E details w') = Done true →
  a ∈ details →
  t_app (db (after (database.insertOrUpdateApps E details w'))) !! ad_appId a =
    Some {| r_name := ad_name a; r_description := description a;
            r_color := None; r_player_count := None |}.
Proof.
  intros Hfetch Hstore Ha.
  rewrite (insertOrUpdateApps_stores E details w' a Hstore Ha).
  destruct (getSteamAppDetails_built E appIds w details Hfetch)
    as [items ->].
  apply list_elem_of_fmap in Ha as (item & -> & _). done.
Qed.

Lemma fetched_apps_are_stored_without_colour_witness :
  t_app (db (after (database.insertOrUpdateApps Examples.healthy
                      [steam.to_AppDetails (Examples.item 10)]
                      Examples.populated))) !! 10%Z =
    Some {| r_name := "Game"; r_description := "About the game";
            r_color := None; r_player_count := None |}.
Proof.
  apply (fetched_apps_are_stored_without_colour Examples.healthy [10]%Z
           Examples.fresh Examples.populated
           [steam.to_AppDetails (Examples.item 10)]
           (steam.to_AppDetails (Examples.item 10))).
  - by vm_compute.
  - by vm_compute.
  - apply list_elem_of_here.
Defined.

(** ** The store writer, beyond the rollback *)

Section Upsert.
Context `{Countable K} {V : Type}.
Implicit Types (rows : list (K * V)) (table : gmap K V).

Lemma upsert_keeps rows table k :
  is_Some (table !! k) → is_Some (database.upsert rows table !! k).
Proof. intros Hk. apply lookup_union_is_Some. by right. Qed.

Lemma upsert_other rows table k :
  k ∉ rows.*1 → database.upsert rows table !! k = table !! k.
Proof.
  intros Hk. unfold database.upsert.
  apply lookup_union_r. by apply not_elem_of_list_to_map_1.
Qed.

Lemma upsert_idemp rows table :
  database.upsert rows (database.upsert rows table) =
    database.upsert rows table.
Proof.
  unfold database.upsert. by rewrite (assoc (∪)), (idemp (∪)).
Qed.

Lemma upsert_nil table : database.upsert [] table = table.
Proof. unfold database.upsert. simpl. by rewrite (left_id ∅ (∪)). Qed.

End Upsert.

Lemma true_or_not (o : outcome bool) : o = Done true ∨ o ≠ Done true.
Proof. destruct o as [[|]| |]; [by left | by right..]. Qed.

Section StoreWriterMore.
Context (E : Env).
Import database.

Lemma app_row_keys apps : (app_row <$> apps).*1 = ad_appId <$> apps.
Proof. by rewrite <- list_fmap_compose. Qed.

(** A proposed association belongs to an app of the batch. *)
Lemma app_tag_rows_elem apps row :
  row ∈ apps ≫= app_tag_rows ↔
  ∃ a t, a ∈ apps ∧ t ∈ ad_tags a ∧ row = (ad_appId a, tw_id t, weight t).
Proof.
  rewrite list_elem_of_bind. split.
  - intros (a & Hrow & Ha). unfold app_tag_rows in Hrow.
    apply list_elem_of_fmap in Hrow as (t & -> & Ht). by exists a, t.
  - intros (a & t & Ha & Ht & ->). exists a. split; [|done].
    unfold app_tag_rows. apply list_elem_of_fmap. by exists t.
Qed.

Lemma forallb_true_iff {A} (f : A → bool) (l : list A) :
  forallb f l = true ↔ Forall (λ x, f x = true) l.
Proof.
  induction l as [|x l IH]; simpl.
  - split; [by constructor | done].
  - rewrite andb_true_iff, Forall_cons, IH. done.
Qed.

(** The two statements are accepted exactly under the constraints, and
    then give the tables with both upserts applied. *)
Lemma exec_apps_iff apps s s2 :
  (∃ s1, exec (AppQuery (app_row <$> apps)) s = Some s1 ∧
         exec (TagsQuery (apps ≫= app_tag_rows)) s1 = Some s2) ↔
  acceptable apps s ∧ s2 = with_apps apps s.
Proof.
  unfold acceptable, with_apps. simpl. unfold keys_distinct.
  rewrite app_row_keys. split.
  - intros (s1 & H1 & H2).
    destruct (bool_decide (NoDup (ad_appId <$> apps))) eqn:Hk; [|done].
    apply bool_decide_eq_true in Hk. injection H1 as <-.
    destruct (bool_decide (NoDup _)) eqn:Hp; [|done].
    apply bool_decide_eq_true in Hp. simpl in H2.
    destruct (forallb _ _) eqn:Hfk; [|done]. injection H2 as <-.
    split; [|done]. split; [done|]. split; [done|].
    apply forallb_true_iff in Hfk.
    eapply Forall_impl; [exact Hfk|]. intros row Hrow.
    unfold references_hold in Hrow. simpl in Hrow.
    apply andb_true_iff in Hrow as [_ Hrow].
    by apply bool_decide_eq_true in Hrow.
  - intros ((Hk & Hp & Hfk) & ->). eexists. split.
    + by rewrite bool_decide_eq_true_2.
    + rewrite bool_decide_eq_true_2 by done. simpl.
      replace (forallb _ _) with true; [done|].
      symmetry. apply forallb_true_iff, Forall_forall.
      intros row Hrow.
      pose proof (proj1 (Forall_forall _ _) Hfk row Hrow) as Htag.
      apply app_tag_rows_elem in Hrow as (a & t & Ha & Ht & ->).
      unfold references_hold. simpl in *.
      apply andb_true_iff. split; apply bool_decide_eq_true; [|done].
      exists (app_row a).2. apply upsert_lookup.
      * by rewrite app_row_keys.
      * apply list_elem_of_fmap. by exists a.
Qed.

(** A call that returns [true] has committed both upserts, under the
    constraints. *)
Lemma insertOrUpdateApps_committed apps w :
  let r := insertOrUpdateApps E apps w in
  result r = Done true →
  acceptable apps (db w) ∧ db (after r) = with_apps apps (db w).
Proof.
  intros r Hr.
  destruct (insertOrUpdateApps_success E apps w Hr)
    as (s1 & s2 & H1 & H2 & Hdb & _).
  fold r in Hdb. rewrite Hdb. apply exec_apps_iff. eauto.
Qed.

(** With the database reachable, the constraints decide. *)
Lemma insertOrUpdateApps_reachable apps w :
  reachable E → acceptable apps (db w) →
  let r := insertOrUpdateApps E apps w in
  result r = Done true ∧ db (after r) = with_apps apps (db w) ∧
  file (after r) = file w.
Proof.
  intros [Hc Hq] Hok.
  destruct (proj2 (exec_apps_iff apps (db w) _) (conj Hok eq_refl))
    as (s1 & H1 & H2).
  unfold insertOrUpdateApps, insertOrUpdateApps_try, insertOrUpdateApps_catch,
    finally, try_catch, bind, pool_connect, client_query, log_error, ret.
  repeat first
    [ rewrite Hc | rewrite Hq | rewrite H1 | rewrite H2
    | progress cbn -[exec] ].
  done.
Qed.

(** As long as no COMMIT is sent, the committed rows stay as they were. *)
Lemma insertOrUpdateApps_uncommitted apps w :
  let r := insertOrUpdateApps E apps w in
  (∀ ok, EQuery COMMIT ok ∉ events r) → db (after r) = db w.
Proof.
  run_apps; intros Hno; try done.
  all: exfalso; eapply Hno; present.
Qed.

(** A call ends in one of three ways. *)
Lemma insertOrUpdateApps_ends apps w :
  let r := insertOrUpdateApps E apps w in
  result r = Done true ∧ EQuery COMMIT true ∈ events r ∨
  result r ≠ Done true ∧ (∀ ok, EQuery COMMIT ok ∉ events r) ∨
  result r ≠ Done true ∧ EQuery COMMIT false ∈ events r.
Proof.
  run_apps.
  all: first
    [ left; split; [done | present]
    | right; left; split; [done | intros ok H; absent H]
    | right; right; split; [done | present] ].
Qed.

End StoreWriterMore.

(** X9. [insertOrUpdateApps] changes the committed rows through its COMMIT
    only.  A call that ends without having sent COMMIT, whatever failed and
    wherever (the statement of the apps may well have been accepted before),
    leaves the committed rows exactly as they were; a call that returns
    [true] got its COMMIT through, the batch met the constraints of the
    tables, and the committed rows are the previous ones with both upserts
    applied.  A call ends in one of these two ways or with a COMMIT that
    failed, and it never touches [data.json]. *)
Theorem insertOrUpdateApps_all_or_nothing E apps w :
  let r := database.insertOrUpdateApps E apps w in
  file (after r) = file w ∧
  ((∀ ok, EQuery COMMIT ok ∉ events r) → db (after r) = db w) ∧
  (result r = Done true →
     acceptable apps (db w) ∧ db (after r) = with_apps apps (db w)) ∧
  (result r = Done true ∧ EQuery COMMIT true ∈ events r ∨
   result r ≠ Done true ∧ (∀ ok, EQuery COMMIT ok ∉ events r) ∨
   result r ≠ Done true ∧ EQuery COMMIT false ∈ events r).
Proof.
  intros r.
  split; [by destruct (insertOrUpdateApps_frame E apps w)|].
  split; [apply insertOrUpdateApps_uncommitted|].
  split; [apply insertOrUpdateApps_committed|].
  apply insertOrUpdateApps_ends.
Qed.

Lemma insertOrUpdateApps_all_or_nothing_witness :
  let r := database.insertOrUpdateApps Examples.healthy Examples.dangling
             Examples.populated in
  EQuery (AppQuery (database.app_row <$> Examples.dangling)) true
    ∈ events r ∧
  db (after r) = db Examples.populated.
Proof.
  split; [vm_compute; present|].
  destruct (insertOrUpdateApps_all_or_nothing Examples.healthy
              Examples.dangling Examples.populated) as (_ & Hno & _).
  apply Hno. intros ok H. vm_compute in H. absent H.
Defined.

(** X10. [insertOrUpdateApps] never leaks its client and never sends a
    statement without one: either the connection fails, and the call throws
    having sent nothing, or the trace of the call starts with the
    connection, ends with the release of the client, and holds only
    statements and error lines in between, on every path. *)
Theorem insertOrUpdateApps_releases E apps w :
  let r := database.insertOrUpdateApps E apps w in
  (result r = Thrown DbError ∧ events r = []) ∨
  (∃ stmts, events r = EConnect :: stmts ++ [ERelease] ∧
            Forall is_statement stmts).
Proof.
  run_apps; first
    [ by left
    | right;
      match goal with
      | |- ∃ stmts, EConnect :: ?l = _ ∧ _ => exists (removelast l)
      end;
      split; [reflexivity | by repeat constructor] ].
Qed.

(** X11. [insertOrUpdateTags] never throws and has two outcomes.  Either it
    returns [true]: the ids of the batch are distinct, every tag of the batch
    is then stored under its id with its name, and every other tag row is
    what it was; or it returns [false] and no row has changed.  In both cases
    [data.json] and the tables of the apps and of the associations are
    left alone. *)
Theorem insertOrUpdateTags_outcomes E tags w :
  let r := database.insertOrUpdateTags E tags w in
  file (after r) = file w ∧
  t_app (db (after r)) = t_app (db w) ∧
  t_app_tags (db (after r)) = t_app_tags (db w) ∧
  (result r = Done true ∧ NoDup (id <$> tags) ∧
     (∀ t, t ∈ tags → t_tags (db (after r)) !! id t = Some (tag_name t)) ∧
     (∀ k, k ∉ id <$> tags →
           t_tags (db (after r)) !! k = t_tags (db w) !! k) ∨
   result r = Done false ∧ db (after r) = db w).
Proof.
  assert ((database.tag_row <$> tags).*1 = id <$> tags) as Hkeys
    by (by rewrite <- list_fmap_compose).
  unfold database.insertOrUpdateTags, database.pool_query, try_catch, bind,
    database.client_query, log_error, ret.
  cbn -[database.exec].
  destruct (pg_query_ok E (tick w)); cbn -[database.exec]; [|by auto 10].
  simpl. unfold database.keys_distinct. rewrite Hkeys.
  destruct (bool_decide (NoDup (id <$> tags))) eqn:Hk; simpl; [|by auto 10].
  apply bool_decide_eq_true in Hk.
  split; [done|]. split; [done|]. split; [done|]. left.
  split; [done|]. split; [done|]. split.
  - intros t Ht. apply upsert_lookup; [by rewrite Hkeys|].
    apply list_elem_of_fmap. by exists t.
  - intros k Hk'. apply upsert_other. by rewrite Hkeys.
Qed.

Lemma insertOrUpdateTags_outcomes_witness :
  let r := database.insertOrUpdateTags Examples.healthy
             [ {| id := 1; tag_name := "Action RPG" |};
               {| id := 2; tag_name := "RPG" |} ]%Z Examples.populated in
  t_tags (db (after r)) !! 1%Z = Some "Action RPG" ∧
  t_tags (db (after r)) !! 2%Z = Some "RPG".
Proof.
  destruct (insertOrUpdateTags_outcomes Examples.healthy
              [ {| id := 1; tag_name := "Action RPG" |};
                {| id := 2; tag_name := "RPG" |} ]%Z Examples.populated)
    as (_ & _ & _ & [(_ & _ & Hstored & _)|(Hr & _)]).
  - split.
    + apply (Hstored {| id := 1; tag_name := "Action RPG" |}).
      apply list_elem_of_here.
    + apply (Hstored {| id := 2; tag_name := "RPG" |}).
      apply list_elem_of_further, list_elem_of_here.
  - vm_compute in Hr. discriminate.
Defined.

(** X12. The store writers never delete: whatever the batch and however
    the call ends, every tag that had a row still has one after
    [insertOrUpdateTags], every app and every association that had a row
    still has one after [insertOrUpdateApps], and [insertOrUpdateApps] leaves
    the table of tags as it was. *)
Theorem upserts_never_delete E tags apps w :
  let rt := database.insertOrUpdateTags E tags w in
  let ra := database.insertOrUpdateApps E apps w in
  dom (t_tags (db w)) ⊆ dom (t_tags (db (after rt))) ∧
  dom (t_app (db w)) ⊆ dom (t_app (db (after ra))) ∧
  dom (t_app_tags (db w)) ⊆ dom (t_app_tags (db (after ra))) ∧
  t_tags (db (after ra)) = t_tags (db w).
Proof.
  intros rt ra.
  assert (∀ `{Countable K} {V} (rows : list (K * V)) (table : gmap K V),
            dom table ⊆ dom (database.upsert rows table)) as Hdom.
  { intros K ?? V rows table. unfold database.upsert.
    rewrite dom_union_L. set_solver. }
  split.
  - subst rt.
    unfold database.insertOrUpdateTags, database.pool_query, try_catch, bind,
      database.client_query, log_error, ret.
    cbn -[database.exec].
    destruct (pg_query_ok E (tick w)); cbn -[database.exec]; [|done].
    simpl. destruct (database.keys_distinct _); simpl; [|done]. apply Hdom.
  - destruct (true_or_not (result ra)) as [Hr|Hr].
    + destruct (insertOrUpdateApps_committed E apps w Hr) as [_ Hdb].
      fold ra in Hdb. rewrite Hdb. unfold with_apps. simpl.
      split; [apply Hdom|]. split; [apply Hdom | done].
    + destruct (insertOrUpdateApps_failure E apps w Hr) as [Hdb _].
      fold ra in Hdb. by rewrite Hdb.
Qed.

(** X13. [insertOrUpdateApps] is idempotent: with the database reachable,
    a call that returned [true] can be repeated at once with the same batch;
    the second call returns [true] as well and leaves the committed rows as
    the first call left them. *)
Theorem insertOrUpdateApps_idempotent E apps w :
  reachable E →
  let first := database.insertOrUpdateApps E apps w in
  let second := database.insertOrUpdateApps E apps (after first) in
  result first = Done true →
  result second = Done true ∧ db (after second) = db (after first).
Proof.
  intros Hreach first second Hr.
  destruct (insertOrUpdateApps_committed E apps w Hr)
    as [(Hk & Hp & Hfk) Hdb].
  fold first in Hdb.
  destruct (insertOrUpdateApps_reachable E apps (after first) Hreach)
    as (Hr2 & Hdb2 & _).
  { rewrite Hdb. by repeat split. }
  fold second in Hr2, Hdb2. split; [done|].
  rewrite Hdb2, Hdb. unfold with_apps. simpl. by rewrite !upsert_idemp.
Qed.

Lemma insertOrUpdateApps_idempotent_witness :
  let first := database.insertOrUpdateApps Examples.healthy
                 [steam.to_AppDetails (Examples.item 10)]
                 Examples.populated in
  let second := database.insertOrUpdateApps Examples.healthy
                  [steam.to_AppDetails (Examples.item 10)] (after first) in
  result second = Done true ∧ db (after second) = db (after first).
Proof.
  apply (insertOrUpdateApps_idempotent Examples.healthy
           [steam.to_AppDetails (Examples.item 10)] Examples.populated).
  - by split.
  - by vm_compute.
Defined.

(** X14. Both store writers accept an empty batch: with the database
    reachable they return [true] and leave every row as it was. *)
Theorem empty_batch_is_accepted E w :
  reachable E →
  let rt := database.insertOrUpdateTags E [] w in
  let ra := database.insertOrUpdateApps E [] w in
  result rt = Done true ∧ db (after rt) = db w ∧
  result ra = Done true ∧ db (after ra) = db w.
Proof.
  intros Hreach rt ra.
  destruct (insertOrUpdateApps_reachable E [] w Hreach) as (Hr & Hdb & _).
  { repeat split; simpl; constructor. }
  fold ra in Hr, Hdb. destruct Hreach as [_ Hq].
  assert (with_apps [] (db w) = db w) as Heta.
  { unfold with_apps. simpl. rewrite !upsert_nil. by destruct (db w). }
  rewrite Heta in Hdb.
  subst rt.
  unfold database.insertOrUpdateTags, database.pool_query, try_catch, bind,
    database.client_query, log_error, ret.
  cbn -[database.exec]. rewrite Hq. simpl. rewrite upsert_nil.
  repeat split; try done. by destruct (db w).
Qed.

Lemma empty_batch_is_accepted_witness :
  result (database.insertOrUpdateApps Examples.healthy []
            Examples.populated) = Done true ∧
  db (after (database.insertOrUpdateApps Examples.healthy []
               Examples.populated)) = db Examples.populated.
Proof.
  destruct (empty_batch_is_accepted Examples.healthy Examples.populated)
    as (_ & _ & Hr & Hdb); [by split | by split].
Defined.

(** X15. [insertOrUpdateApps] rejects a batch as a whole when it proposes
    the same app id twice, or an association with a tag id that has no row
    in the table of tags: the call does not return [true] and no row of the
    batch, not even of its other apps, is stored. *)
Theorem insertOrUpdateApps_rejects_the_batch E apps w :
  ¬ NoDup (ad_appId <$> apps) ∨
  (∃ a t, a ∈ apps ∧ t ∈ ad_tags a ∧ t_tags (db w) !! tw_id t = None) →
  let r := database.insertOrUpdateApps E apps w in
  result r ≠ Done true ∧ db (after r) = db w.
Proof.
  intros Hbad r.
  assert (result r ≠ Done true) as Hr.
  { intros Hr.
    destruct (insertOrUpdateApps_committed E apps w Hr)
      as [(Hk & _ & Hfk) _].
    destruct Hbad as [Hdup|(a & t & Ha & Ht & Hnone)]; [done|].
    assert ((ad_appId a, tw_id t, weight t)
              ∈ apps ≫= database.app_tag_rows) as Hrow
      by (apply app_tag_rows_elem; by exists a, t).
    apply (proj1 (Forall_forall _ _) Hfk) in Hrow. simpl in Hrow.
    rewrite Hnone in Hrow. by destruct Hrow. }
  split; [done|]. by destruct (insertOrUpdateApps_failure E apps w Hr).
Qed.

Lemma insertOrUpdateApps_rejects_the_batch_witness :
  let r := database.insertOrUpdateApps Examples.healthy Examples.dangling
             Examples.populated in
  result r ≠ Done true ∧ db (after r) = db Examples.populated.
Proof.
  apply (insertOrUpdateApps_rejects_the_batch Examples.healthy
           Examples.dangling Examples.populated).
  right. eexists _, _. split; [apply list_elem_of_here|].
  split; [apply list_elem_of_here | reflexivity].
Defined.

(** ** Reading the nodes back (getNodes) *)

Section Nodes.
Context (E : Env).
Import database.

Lemma getNodes_run w :
  getNodes E w =
    if pg_query_ok E (tick w)
    then {| result := Done (to_Node <$> select_nodes (db w));
            after := step w; events := [] |}
    else {| result := Done []; after := step w;
            events := [LogError "Error fetching nodes:"] |}.
Proof.
  unfold getNodes, try_catch, bind, pool_select, log_error, ret.
  by destruct (pg_query_ok E (tick w)).
Qed.

(** The row of an app is in the answer of the query, and only such rows. *)
Lemma select_nodes_elem s row :
  row ∈ select_nodes s ↔
  ∃ i r, t_app s !! i = Some r ∧
         row = {| row_app_id := i; row_name := r_name r;
                  row_description := r_description r;
                  row_color := r_color r;
                  row_player_count := r_player_count r;
                  row_tags := Some (joined_tags s i) |}.
Proof.
  unfold select_nodes. rewrite list_elem_of_fmap. split.
  - intros ([i r] & -> & Hin). apply elem_of_map_to_list in Hin.
    by exists i, r.
  - intros (i & r & Hi & ->). exists (i, r). split; [done|].
    by apply elem_of_map_to_list.
Qed.

Lemma select_nodes_ids s :
  (λ row, n_id (to_Node row)) <$> select_nodes s = (map_to_list (t_app s)).*1.
Proof. unfold select_nodes. by rewrite <- list_fmap_compose. Qed.

(** The associations of an app, as the join sees them. *)
Lemma associations_elem s i row :
  row ∈ filter (λ r, r.1.1 = i) (map_to_list (t_app_tags s)) ↔
  t_app_tags s !! row.1 = Some row.2 ∧ row.1.1 = i.
Proof.
  rewrite list_elem_of_filter. destruct row as [k wt]. simpl.
  rewrite elem_of_map_to_list. tauto.
Qed.

Lemma joined_tags_lonely s i :
  (∀ t, t_app_tags s !! (i, t) = None) →
  joined_tags s i =
    [ {| nt_id := None; nt_name := None; nt_weight := None |} ].
Proof.
  intros Hnone. unfold joined_tags.
  destruct (filter _ _) as [|[[a t] wt] l] eqn:Hassoc; [done|].
  assert (((a, t), wt) ∈ filter (λ r, r.1.1 = i)
                            (map_to_list (t_app_tags s))) as Hin
    by (rewrite Hassoc; apply list_elem_of_here).
  apply associations_elem in Hin as [Hin Hi]. simpl in *. subst a.
  by rewrite Hnone in Hin.
Qed.

Lemma joined_tags_elem s i t wt :
  t_app_tags s !! (i, t) = Some wt →
  {| nt_id := (λ _, t) <$> t_tags s !! t; nt_name := t_tags s !! t;
     nt_weight := Some wt |} ∈ joined_tags s i.
Proof.
  intros Hin. unfold joined_tags.
  assert (((i, t), wt) ∈ filter (λ r, r.1.1 = i)
                            (map_to_list (t_app_tags s))) as Hassoc
    by (by apply associations_elem).
  destruct (filter _ _) as [|row l] eqn:Heq; [by apply elem_of_nil in Hassoc|].
  apply list_elem_of_fmap. by exists ((i, t), wt).
Qed.

Lemma joined_tags_not_nil s i : joined_tags s i ≠ [].
Proof. unfold joined_tags. by destruct (filter _ _). Qed.

End Nodes.

(** X16. When its query is answered, [getNodes] returns every app of the
    table exactly once, each with the name, description, colour and player
    count of its row, NULLs included. *)
Theorem getNodes_lists_every_app_once E w :
  pg_query_ok E (tick w) = true →
  ∃ nodes,
    result (database.getNodes E w) = Done nodes ∧
    NoDup (database.n_id <$> nodes) ∧
    (∀ i, is_Some (t_app (db w) !! i) → i ∈ database.n_id <$> nodes) ∧
    (∀ node, node ∈ nodes →
       t_app (db w) !! database.n_id node =
         Some {| r_name := database.n_name node;
                 r_description := database.n_description node;
                 r_color := database.n_color node;
                 r_player_count := database.n_playerCount node |}).
Proof.
  intros Hq. rewrite getNodes_run, Hq. eexists. split; [done|].
  rewrite <- list_fmap_compose.
  change (database.n_id ∘ database.to_Node)
    with (λ row, database.n_id (database.to_Node row)).
  rewrite select_nodes_ids.
  split; [apply NoDup_fst_map_to_list|]. split.
  - intros i [r Hr]. apply list_elem_of_fmap. exists (i, r).
    split; [done|]. by apply elem_of_map_to_list.
  - intros node Hnode. apply list_elem_of_fmap in Hnode as (row & -> & Hrow).
    apply select_nodes_elem in Hrow as (i & r & Hi & ->). simpl.
    rewrite Hi. by destruct r.
Qed.

Lemma getNodes_lists_every_app_once_witness :
  ∃ nodes,
    result (database.getNodes Examples.healthy Examples.populated)
      = Done nodes ∧
    10%Z ∈ database.n_id <$> nodes.
Proof.
  destruct (getNodes_lists_every_app_once Examples.healthy
              Examples.populated eq_refl) as (nodes & Hr & _ & Hall & _).
  exists nodes. split; [exact Hr|]. apply Hall. vm_compute. by eexists.
Defined.

(** X17. [getNodes] never throws and never changes anything.  When its
    query fails it logs the error and returns the empty list, which is also
    what it returns for a table without apps. *)
Theorem getNodes_never_throws E w :
  let r := database.getNodes E w in
  (∃ nodes, result r = Done nodes) ∧
  untouched r w ∧
  (pg_query_ok E (tick w) = false →
     result r = Done [] ∧ events r = [LogError "Error fetching nodes:"]) ∧
  (pg_query_ok E (tick w) = true → t_app (db w) = ∅ → result r = Done []).
Proof.
  intros r. subst r. rewrite getNodes_run.
  destruct (pg_query_ok E (tick w)); simpl.
  - split; [by eexists|]. split; [done|]. split; [done|].
    intros _ Hempty. unfold database.select_nodes.
    by rewrite Hempty, map_to_list_empty.
  - split; [by eexists|]. by repeat split.
Qed.

Lemma getNodes_never_throws_witness :
  result (database.getNodes Examples.db_down Examples.populated) = Done [] ∧
  events (database.getNodes Examples.db_down Examples.populated) =
    [LogError "Error fetching nodes:"].
Proof.
  destruct (getNodes_never_throws Examples.db_down Examples.populated)
    as (_ & _ & Hfail & _).
  by apply Hfail.
Defined.

(** X18. The list of tags of a node is never empty: the query joins with
    LEFT JOIN, so an app without any association comes back with one tag
    entry whose id, name and weight are all null, and [row.tags ?? []] never
    applies. *)
Theorem getNodes_tags_never_empty E w nodes node :
  result (database.getNodes E w) = Done nodes →
  node ∈ nodes →
  database.n_tags node ≠ [] ∧
  ((∀ t, t_app_tags (db w) !! (database.n_id node, t) = None) →
   database.n_tags node =
     [ {| database.nt_id := None; database.nt_name := None;
          database.nt_weight := None |} ]).
Proof.
  rewrite getNodes_run. destruct (pg_query_ok E (tick w)); simpl;
    intros [= <-] Hnode; [|by apply elem_of_nil in Hnode].
  apply list_elem_of_fmap in Hnode as (row & -> & Hrow).
  apply select_nodes_elem in Hrow as (i & r & Hi & ->). simpl.
  split; [apply joined_tags_not_nil | apply joined_tags_lonely].
Qed.

Lemma getNodes_tags_never_empty_witness :
  let node :=
    {| database.n_id := 10; database.n_name := "Old name";
       database.n_description := "Old text";
       database.n_color := Some "#ff0000";
       database.n_playerCount := Some 42%Z;
       database.n_tags :=
         [ {| database.nt_id := None; database.nt_name := None;
              database.nt_weight := None |} ] |} in
  result (database.getNodes Examples.healthy Examples.populated)
    = Done [node] ∧
  database.n_tags node ≠ [].
Proof.
  intros node. split; [by vm_compute|].
  destruct (getNodes_tags_never_empty Examples.healthy Examples.populated
              [node] node) as [Hne _].
  - by vm_compute.
  - apply list_elem_of_here.
  - exact Hne.
Defined.

(** X19. What [insertOrUpdateApps] has stored, [getNodes] gives back: after
    a call that returned [true], and when the query is answered, every app of
    the batch is among the nodes with its name, its description and the
    colour and player count it was sent with, and each of its tags is among
    the tags of its node with its id, its weight and the name that the table
    of tags holds for it. *)
Theorem stored_apps_come_back E apps w a :
  let r := database.insertOrUpdateApps E apps w in
  result r = Done true → a ∈ apps →
  pg_query_ok E (tick (after r)) = true →
  ∃ nodes node,
    result (database.getNodes E (after r)) = Done nodes ∧
    node ∈ nodes ∧
    database.n_id node = ad_appId a ∧
    database.n_name node = ad_name a ∧
    database.n_description node = description a ∧
    database.n_color node = color a ∧
    database.n_playerCount node = playerCount a ∧
    ∀ t, t ∈ ad_tags a →
      ∃ tag_name,
        t_tags (db w) !! tw_id t = Some tag_name ∧
        {| database.nt_id := Some (tw_id t);
           database.nt_name := Some tag_name;
           database.nt_weight := Some (weight t) |} ∈ database.n_tags node.
Proof.
  intros r Hr Ha Hq.
  destruct (insertOrUpdateApps_committed E apps w Hr)
    as [(Hk & Hp & Hfk) Hdb].
  fold r in Hdb. rewrite getNodes_run, Hq, Hdb.
  set (s := with_apps apps (db w)).
  assert (t_app s !! ad_appId a = Some (database.app_row a).2) as Hrow.
  { apply upsert_lookup; [by rewrite app_row_keys|].
    apply list_elem_of_fmap. by exists a. }
  eexists _, (database.to_Node _). split; [done|]. split.
  { apply list_elem_of_fmap. eexists. split; [done|].
    apply select_nodes_elem. by eexists _, _. }
  simpl. repeat (split; [done|]).
  intros t Ht.
  assert ((ad_appId a, tw_id t, weight t)
            ∈ apps ≫= database.app_tag_rows) as Hpair
    by (apply app_tag_rows_elem; by exists a, t).
  destruct (proj1 (Forall_forall _ _) Hfk _ Hpair) as [tag_name Hname].
  simpl in Hname. exists tag_name. split; [done|].
  assert (t_app_tags s !! (ad_appId a, tw_id t) = Some (weight t)) as Hw
    by (by apply upsert_lookup).
  pose proof (joined_tags_elem s _ _ _ Hw) as Hentry.
  change (t_tags s) with (t_tags (db w)) in Hentry.
  by rewrite Hname in Hentry.
Qed.

Lemma stored_apps_come_back_witness :
  let r := database.insertOrUpdateApps Examples.healthy
             [steam.to_AppDetails (Examples.item 10)] Examples.populated in
  ∃ nodes node,
    result (database.getNodes Examples.healthy (after r)) = Done nodes ∧
    node ∈ nodes ∧ database.n_id node = 10%Z ∧
    database.n_name node = "Game" ∧
    {| database.nt_id := Some 1%Z; database.nt_name := Some "Action";
       database.nt_weight := Some 5%Z |} ∈ database.n_tags node.
Proof.
  destruct (stored_apps_come_back Examples.healthy
              [steam.to_AppDetails (Examples.item 10)] Examples.populated
              (steam.to_AppDetails (Examples.item 10)))
    as (nodes & node & Hr & Hin & Hid & Hname & _ & _ & _ & Htags).
  - by vm_compute.
  - apply list_elem_of_here.
  - reflexivity.
  - exists nodes, node. repeat (split; [done|]).
    destruct (Htags {| tw_id := 1; weight := 5 |}) as (name & Hn & Hentry);
      [apply list_elem_of_here|].
    vm_compute in Hn. injection Hn as <-. exact Hentry.
Defined.

(** ** The tag list and the feeds, beyond the watermark *)

Section FeedsMore.
Context (E : Env).
Import jobs.

Lemma insertOrUpdateTags_keeps_apps tags w :
  let r := database.insertOrUpdateTags E tags w in
  t_app (db (after r)) = t_app (db w) ∧
  t_app_tags (db (after r)) = t_app_tags (db w).
Proof.
  unfold database.insertOrUpdateTags, database.pool_query, try_catch, bind,
    database.client_query, log_error, ret.
  cbn -[database.exec].
  destruct (pg_query_ok E (tick w)); cbn -[database.exec]; [|done].
  simpl. by destruct (database.keys_distinct _).
Qed.

Lemma insertOrUpdateApps_keeps_tags apps w :
  t_tags (db (after (database.insertOrUpdateApps E apps w))) = t_tags (db w).
Proof.
  destruct (true_or_not (result (database.insertOrUpdateApps E apps w)))
    as [Hr|Hr].
  - destruct (insertOrUpdateApps_committed E apps w Hr) as [_ Hdb].
    by rewrite Hdb.
  - destruct (insertOrUpdateApps_failure E apps w Hr) as [Hdb _].
    by rewrite Hdb.
Qed.

Lemma setDataJson_db d w : db (after (setDataJson E d w)) = db w.
Proof.
  rewrite setDataJson_run.
  by destruct (fs_write_ok E (tick w)), (fs_write_torn E (tick w)).
Qed.

Lemma syncSteamTags_tables w :
  let r := syncSteamTags E w in
  t_app (db (after r)) = t_app (db w) ∧
  t_app_tags (db (after r)) = t_app_tags (db w).
Proof.
  rewrite syncSteamTags_run. cbv zeta.
  pose proof (fetchTags_frame E (stored E w) (step w)) as Hframe.
  destruct (fetchTags E (stored E w) (step w)) as [[tl| |] aft evs];
    destruct Hframe as [[_ Hd] _]; simpl in Hd;
    cbn [result after events]; try (by rewrite Hd).
  destruct (decide _); cbn [after]; [by rewrite Hd|].
  pose proof (insertOrUpdateTags_keeps_apps (tags tl) aft) as Hw.
  pose proof (setDataJson_db
                {| lastTagHash := tagHash tl;
                   lastAppTime := lastAppTime (stored E w) |}
                (after (database.insertOrUpdateTags E (tags tl) aft))) as Hs.
  destruct (database.insertOrUpdateTags E (tags tl) aft)
    as [[[|]| |] aftw evsw];
    cbn [result after events] in *; destruct Hw as [Hw1 Hw2];
    rewrite ?Hs, Hw1, Hw2, Hd; done.
Qed.

Lemma syncSteamApps_tables fuel w :
  t_tags (db (after (syncSteamApps E fuel w))) = t_tags (db w).
Proof.
  rewrite syncSteamApps_run. cbv zeta.
  pose proof (fetchApps_frame E fuel (stored E w) (step w)) as Hframe.
  destruct (fetchApps E fuel (stored E w) (step w)) as [[al| |] aft evs];
    destruct Hframe as [[_ Hd] _]; simpl in Hd;
    cbn [result after events]; try (by rewrite Hd).
  destruct (decide _); cbn [after]; [by rewrite Hd|].
  pose proof (getSteamAppDetails_frame E (appId <$> al_apps al) aft)
    as Hdframe.
  destruct (steam.getSteamAppDetails E (appId <$> al_apps al) aft)
    as [[details| |] aft1 evs1];
    destruct Hdframe as [[_ Hdd] _]; simpl in Hdd;
    cbn [result after events]; try (by rewrite Hdd, Hd).
  pose proof (insertOrUpdateApps_keeps_tags details aft1) as Hw.
  pose proof (setDataJson_db
                {| lastTagHash := lastTagHash (stored E w);
                   lastAppTime := Some (time al) |}
                (after (database.insertOrUpdateApps E details aft1))) as Hs.
  destruct (database.insertOrUpdateApps E details aft1)
    as [[[|]| |] aftw evsw];
    cbn [result after events] in *;
    rewrite ?Hs, Hw, Hdd, Hd; done.
Qed.

End FeedsMore.

(** X20. [getTagList] sends exactly one request, carrying the hash it was
    given, or 0 when it was given none.  A request that fails makes it
    throw the corresponding error, and so does a body without a [response]
    object; otherwise it returns the remote's [version_hash] and one tag per
    remote tag, in the remote's order, or no tag when the response has no
    array of tags. *)
Theorem getTagList_outcomes E lastTagHash w :
  let request := GetTagList (default 0%Z lastTagHash) in
  let answer := remote_taglist E (tick w) request in
  let r := steam.getTagList E lastTagHash w in
  events r = [EFetch request] ∧
  untouched r w ∧
  (∀ e, fetch_failure "Failed to fetch Steam tag list: " answer = Some e →
        result r = Thrown e) ∧
  (∀ st, answer = Resp true st (Some {| tl_response := None |}) →
         result r = Thrown TypeError) ∧
  (∀ st resp, answer = Resp true st (Some {| tl_response := Some resp |}) →
     result r =
       Done {| tags := steam.to_Tag <$> default [] (tl_tags resp);
               tagHash := version_hash resp |}).
Proof.
  unfold steam.getTagList, bind, steam.fetch. cbv zeta.
  destruct (remote_taglist E (tick w) _) as [|[] st [[[resp|]]|]]; simpl.
  all: split; [done|]; split; [done|].
  all: split; [intros e [=]; by subst|].
  all: split; [intros ? [=] | intros ? resp' [=]]; subst; try done.
  by destruct (tl_tags resp').
Qed.

Lemma getTagList_outcomes_witness :
  result (steam.getTagList Examples.offline (Some 77%Z) Examples.fresh) =
    Thrown NetworkError.
Proof.
  destruct (getTagList_outcomes Examples.offline (Some 77%Z) Examples.fresh)
    as (_ & _ & Hfail & _).
  by apply Hfail.
Defined.

(** X21. Each feed keeps to its own tables, however it ends: the taxonomy
    feed leaves the tables of the apps and of the associations as they were,
    and the catalog feed leaves the table of tags as it was. *)
Theorem feeds_keep_to_their_tables E fuel w :
  let rt := jobs.syncSteamTags E w in
  let ra := jobs.syncSteamApps E fuel w in
  t_app (db (after rt)) = t_app (db w) ∧
  t_app_tags (db (after rt)) = t_app_tags (db w) ∧
  t_tags (db (after ra)) = t_tags (db w).
Proof.
  intros rt ra. destruct (syncSteamTags_tables E w) as [H1 H2].
  split; [done|]. split; [done|]. apply syncSteamApps_tables.
Qed.

(** X22. A pass in which both fetches come back empty is a no-op as a
    whole: [syncWithSteam] returns normally, [data.json] and all tables are
    what they were, and the pass only sent its requests and wrote to the
    console. *)
Theorem quiet_pass E fuel w tl al :
  let rt := jobs.syncSteamTags E w in
  result (jobs.fetchTags E (stored E w) (step w)) = Done tl → tags tl = [] →
  result (jobs.fetchApps E fuel (stored E (after rt)) (step (after rt)))
    = Done al →
  al_apps al = [] →
  let pass := jobs.syncWithSteam E fuel w in
  result pass = Done tt ∧ untouched pass w ∧ Forall quiet (events pass).
Proof.
  intros rt Htl Hnil Hal Hnil' pass.
  destruct (syncSteamTags_nothing_new E w tl Htl Hnil)
    as (Hrt & [Hft Hdt] & Hqt).
  destruct (syncSteamApps_nothing_new E fuel (after rt) al Hal Hnil')
    as (Hra & [Hfa Hda] & Hqa).
  fold rt in Hrt, Hft, Hdt, Hqt.
  subst pass. rewrite syncWithSteam_run. cbv zeta. fold rt.
  rewrite Hrt, Hra. cbn [result after events].
  split; [done|]. split; [split; simpl; congruence|].
  constructor; [done|]. rewrite !Forall_app.
  split; [done|]. split; [done|]. by repeat constructor.
Qed.

Lemma quiet_pass_witness :
  let pass := jobs.syncWithSteam Examples.steady 5 Examples.populated in
  result pass = Done tt ∧ untouched pass Examples.populated ∧
  Forall quiet (events pass).
Proof.
  by apply (quiet_pass Examples.steady 5 Examples.populated
              {| tags := []; tagHash := Some 77%Z |}
              {| al_apps := []; time := 500%Z |}).
Defined.

(** X23. A feed that saves rewrites the whole of [data.json] from what it
    read at its start.  When that read failed, the feed started from [{}]:
    if it then saves, the saved file holds its own new watermark and no
    longer the watermark of the other feed, whatever the file held. *)
Theorem unreadable_file_forgets_the_other_watermark E fuel w :
  fs_read_ok E (tick w) = false →
  (∀ d, EWriteFile d true ∈ events (jobs.syncSteamTags E w) →
     file (after (jobs.syncSteamTags E w)) = Some d ∧ lastAppTime d = None) ∧
  (∀ d, EWriteFile d true ∈ events (jobs.syncSteamApps E fuel w) →
     file (after (jobs.syncSteamApps E fuel w)) = Some d ∧
     lastTagHash d = None).
Proof.
  intros Hread.
  assert (stored E w = jobs.empty_data) as Hstored
    by (unfold stored; by rewrite Hread).
  split; intros d Hin.
  - destruct (syncSteamTags_discipline E w) as (_ & _ & _ & _ & _ & Hsave).
    destruct (Hsave d Hin) as (Hfile & tl & _ & ->).
    split; [done|]. simpl. by rewrite Hstored.
  - destruct (syncSteamApps_discipline E fuel w)
      as (_ & _ & _ & _ & _ & Hsave).
    destruct (Hsave d Hin) as (Hfile & al & _ & ->).
    split; [done|]. simpl. by rewrite Hstored.
Qed.

Lemma unreadable_file_forgets_the_other_watermark_witness :
  file Examples.populated =
    Some {| lastTagHash := Some 77%Z; lastAppTime := Some 500%Z |} ∧
  file (after (jobs.syncSteamTags Examples.unreadable Examples.populated)) =
    Some {| lastTagHash := Some 77%Z; lastAppTime := None |}.
Proof.
  split; [reflexivity|].
  destruct (unreadable_file_forgets_the_other_watermark Examples.unreadable
              5 Examples.populated eq_refl) as [Htags _].
  destruct (Htags {| lastTagHash := Some 77%Z; lastAppTime := None |})
    as [Hfile _]; [vm_compute; present | exact Hfile].
Defined.

(** X24. The catalog feed advances its watermark even when nothing is left
    to store: if Steam reports updated apps but every one of them is dropped
    from the details (unavailable for the region), then, with the database
    reachable and the disk accepting the write, the feed returns normally,
    no row has changed and [lastAppTime] is the [time] of the listing. *)
Theorem filtered_out_batch_still_advances E fuel w al :
  reachable E →
  let fa := jobs.fetchApps E fuel (stored E w) (step w) in
  let rd := steam.getSteamAppDetails E (appId <$> al_apps al) (after fa) in
  let rw := database.insertOrUpdateApps E [] (after rd) in
  result fa = Done al → al_apps al ≠ [] → result rd = Done [] →
  fs_write_ok E (tick (after rw)) = true →
  let r := jobs.syncSteamApps E fuel w in
  result r = Done tt ∧
  db (after r) = db w ∧
  file (after r) = Some {| lastTagHash := lastTagHash (stored E w);
                           lastAppTime := Some (time al) |}.
Proof.
  intros Hreach fa rd rw Hfa Hne Hrd Hfs r.
  destruct (insertOrUpdateApps_reachable E [] (after rd) Hreach)
    as (Hrw & Hdb & _).
  { repeat split; simpl; constructor. }
  fold rw in Hrw, Hdb.
  destruct (fetchApps_frame E fuel (stored E w) (step w)) as [[_ Hd1] _].
  destruct (getSteamAppDetails_frame E (appId <$> al_apps al) (after fa))
    as [[_ Hd2] _].
  fold fa in Hd1. fold rd in Hd2. simpl in Hd1.
  destruct (syncSteamApps_advances E fuel w al [] Hfa Hne Hrd Hrw Hfs)
    as [Hr Hfile].
  split; [done|]. split; [|done].
  subst r. rewrite syncSteamApps_run. cbv zeta. fold fa. rewrite Hfa.
  destruct (decide (length (al_apps al) = 0)) as [Hz|_];
    [by apply nil_length_inv in Hz|].
  fold rd. rewrite Hrd. fold rw. rewrite Hrw. cbn [after].
  rewrite setDataJson_db, Hdb, Hd2, Hd1.
  unfold with_apps. simpl. rewrite !upsert_nil. by destruct (db w).
Qed.

Lemma filtered_out_batch_still_advances_witness :
  let r := jobs.syncSteamApps Examples.all_flagged 5 Examples.populated in
  result r = Done tt ∧ db (after r) = db Examples.populated ∧
  file (after r) =
    Some {| lastTagHash := Some 77%Z; lastAppTime := Some 1000%Z |}.
Proof.
  apply (filtered_out_batch_still_advances Examples.all_flagged 5
           Examples.populated
           {| al_apps := [ {| appId := -5; name := "Game" |} ]%Z;
              time := 1000%Z |}).
  - by split.
  - by vm_compute.
  - done.
  - by vm_compute.
  - by vm_compute.
Defined.
